(** * ACM Photobook: the draggable image carousel

    A shallow embedding of the [ImageCarousel] React component and of its
    earlier threshold-commit revision, with the properties of its layout
    engine and gesture controller.

    Number model.  JavaScript numbers are idealised as exact numbers: image
    indices and counts are integers ([Z]), pointer positions and the layout
    quantities derived from them are rationals ([Q], every finite double is
    one), and the Gaussian depth scale, which needs [Math.exp], is a real
    ([R]).  A JavaScript operation whose result is not a finite number
    (remainder or quotient by zero) returns [None].  Where a property
    turns on the rounding of double precision, the computation is stated
    once more on binary64 numbers ([Double]). *)

From Stdlib Require Import ZArith QArith Qround Qabs Qminmax Reals Psatz Bool.
From Stdlib Require Import Qreals List String DecimalString.
From Stdlib Require Import PrimFloat FloatClass.
Import ListNotations.

Local Open Scope Z_scope.

(** ** JavaScript arithmetic *)

Module JS.

(** [a % b] on integers: the remainder has the sign of the dividend;
    [a % 0] is [NaN]. *)
Definition rem (a b : Z) : option Z :=
  if b =? 0 then None else Some (Z.rem a b).

(** Rounding toward zero. *)
Definition trunc (q : Q) : Z :=
  if Qle_bool 0 q then Qfloor q else Qceiling q.

(** [a % b] on fractional numbers: [a - b * trunc (a / b)];
    [a % 0] is [NaN]. *)
Definition fmod (a b : Q) : option Q :=
  if Qeq_bool b 0 then None
  else Some (a - b * inject_Z (trunc (a / b)))%Q.

(** [a / b]; a quotient by zero is infinite or [NaN]. *)
Definition div (a b : Q) : option Q :=
  if Qeq_bool b 0 then None else Some (a / b)%Q.

(** [Math.round]: nearest integer, halves toward plus infinity. *)
Definition round (q : Q) : Z := Qfloor (q + (1 # 2))%Q.

(** [a > b]. *)
Definition gt (a b : Q) : bool := negb (Qle_bool a b).

(** [array[i]]: [undefined] outside the array. *)
Definition get {A : Type} (array : list A) (i : Z) : option A :=
  if i <? 0 then None else nth_error array (Z.to_nat i).

(** The indices [Array.prototype.map] passes to its callback. *)
Definition indices {A : Type} (array : list A) : list Z :=
  map Z.of_nat (seq 0 (List.length array)).

End JS.

(** A button element: a click reaches [onClick] only when the button is
    not [disabled]. *)
Record Button (S : Type) := {
  disabled : bool;
  onClick : S -> option S
}.
Arguments disabled {S} _.
Arguments onClick {S} _ _.

Definition click {S : Type} (b : Button S) (st : S) : option S :=
  if disabled b then Some st else onClick b st.

(** ** The carousel with continuous commit (src/unnamed/part_001) *)

Module Continuous.

Record Image := { src : string; caption : string }.

Record CarouselState := mkState {
  currentIndex : Z;
  isDragging : bool;
  startX : Q;
  currentX : Q
}.

(** The four [useState] initial values. *)
Definition initialState : CarouselState := mkState 0 false 0 0.

Definition SENSITIVITY : Q := 200.
Definition SPREAD : Q := 120.
Definition MIN_SCALE : R := (1 / 2)%R.
Definition MAX_SCALE : R := 1%R.
Definition SCALE_SPREAD : R := (1 / 2)%R.

(** [gaussian] over the reals, with the exact exponential; [Double.gaussian]
    is the same function on binary64 numbers. *)
Definition gaussian (x min max spread : R) : R :=
  let exp_ := ((- x) * x / (2 * spread))%R in
  ((max - min) * exp exp_ + min)%R.

(** The depth scale [getImageStyle] gives an image at signed offset [x]. *)
Definition depthScale (x : R) : R :=
  gaussian x MIN_SCALE MAX_SCALE SCALE_SPREAD.

Record ImageStyle := {
  translateX : Q;
  scale : R;
  zIndex : Z;
  opacity : option Q
}.

Section Component.

Variable totalImages : Z.

(** [Math.max] of a single argument is that argument. *)
Definition maxOffset : Z := totalImages / 2 - 2.

Definition dragOffset (st : CarouselState) : Q :=
  ((currentX st - startX st) / SENSITIVITY)%Q.

Definition adjustedOffset (st : CarouselState) (index : Z) : option Q :=
  let indexOffset := index - currentIndex st in
  match JS.fmod (inject_Z indexOffset + dragOffset st + inject_Z totalImages)
                (inject_Z totalImages) with
  | None => None
  | Some offset =>
      Some (if JS.gt offset (inject_Z totalImages / 2)
            then offset - inject_Z totalImages else offset)%Q
  end.

Definition opacityAt (absOffset : Q) : option Q :=
  match JS.div (absOffset - 1) (inject_Z maxOffset) with
  | None => None
  | Some r => Some (Qmax 0 (1 - r))
  end.

Definition getImageStyle (st : CarouselState) (index : Z) : option ImageStyle :=
  match adjustedOffset st index with
  | None => None
  | Some adjusted =>
      let absOffset := Qabs adjusted in
      Some {| translateX := adjusted * SPREAD;
              scale := depthScale (Q2R adjusted);
              zIndex := Z.max 0 (100 - Qfloor (absOffset * 10));
              opacity := opacityAt absOffset |}
  end.

(** The updater [offsetImage] hands to [setCurrentIndex]. *)
Definition offsetIndex (offset prevIndex : Z) : option Z :=
  JS.rem (prevIndex + offset + totalImages) totalImages.

Definition setCurrentIndex (i : Z) (st : CarouselState) : CarouselState :=
  mkState i (isDragging st) (startX st) (currentX st).

Definition offsetImage (offset : Z) (st : CarouselState) : option CarouselState :=
  match offsetIndex offset (currentIndex st) with
  | None => None
  | Some i => Some (setCurrentIndex i st)
  end.

Definition handleStart (clientX : Q) (st : CarouselState) : CarouselState :=
  mkState (currentIndex st) true clientX clientX.

Definition handleMove (clientX : Q) (st : CarouselState) : CarouselState :=
  if negb (isDragging st) then st
  else mkState (currentIndex st) (isDragging st) (startX st) clientX.

Definition dragDelta (st : CarouselState) : Z :=
  - JS.round ((currentX st - startX st) / SENSITIVITY).

Definition handleEnd (st : CarouselState) : option CarouselState :=
  if negb (isDragging st) then Some st
  else
    match offsetImage (dragDelta st) st with
    | None => None
    | Some st' => Some (mkState (currentIndex st') false 0 0)
    end.

(** [onClick] of the image at [index]. *)
Definition selectImage (index : Z) (st : CarouselState) : CarouselState :=
  if negb (index =? currentIndex st) && negb (isDragging st)
  then setCurrentIndex index st else st.

Definition previousButton (st : CarouselState) : Button CarouselState :=
  {| disabled := isDragging st; onClick := offsetImage (-1) |}.

Definition nextButton (st : CarouselState) : Button CarouselState :=
  {| disabled := isDragging st; onClick := offsetImage 1 |}.

Inductive Event :=
| PointerDown (clientX : Q)
| PointerMove (clientX : Q)
| PointerUp
| ClickPrevious
| ClickNext
| ClickImage (index : Z).

Definition dispatch (st : CarouselState) (e : Event) : option CarouselState :=
  match e with
  | PointerDown clientX => Some (handleStart clientX st)
  | PointerMove clientX => Some (handleMove clientX st)
  | PointerUp => handleEnd st
  | ClickPrevious => click (previousButton st) st
  | ClickNext => click (nextButton st) st
  | ClickImage index => Some (selectImage index st)
  end.

Fixpoint run (st : CarouselState) (es : list Event) : option CarouselState :=
  match es with
  | [] => Some st
  | e :: es' =>
      match dispatch st e with
      | None => None
      | Some st' => run st' es'
      end
  end.

End Component.

Record View := {
  items : list (option ImageStyle);
  captionText : string
}.

(** One render of the component; [None] is the [TypeError] of reading
    [caption] of [undefined]. *)
Definition render (images : list Image) (st : CarouselState) : option View :=
  let totalImages := Z.of_nat (List.length images) in
  let styles := map (getImageStyle totalImages st) (JS.indices images) in
  match JS.get images (currentIndex st) with
  | None => None
  | Some image => Some {| items := styles; captionText := caption image |}
  end.

End Continuous.

(** ** The earlier revision with threshold commit
       (src/unnamed/part_002, first component) *)

Module Threshold.

Record CarouselState := mkState {
  currentIndex : Z;
  isDragging : bool;
  startX : Q;
  currentX : Q;
  dragOffset : Q
}.

Definition initialState : CarouselState := mkState 0 false 0 0 0.

Definition defaultImages : list string := repeat "/placeholder.png"%string 7.

(** [images || defaultImages]: an array, even an empty one, is truthy. *)
Definition imageList (images : option (list string)) : list string :=
  match images with
  | Some l => l
  | None => defaultImages
  end.

(** The piecewise-linear depth scale of [getImageStyle], its decimal
    constants taken as exact rationals. *)
Definition linearScale (absOffset : Q) : Q :=
  if Qeq_bool absOffset 0 then 1
  else if Qle_bool absOffset 1 then 1 - absOffset * (3 # 10)
  else if Qle_bool absOffset 2 then (7 # 10) - (absOffset - 1) * (2 # 10)
  else (5 # 10) - (absOffset - 2) * (1 # 10).

Definition opacityAt (absOffset : Q) : Q :=
  if JS.gt absOffset 3 then 0 else 1 - Qmax 0 (absOffset - 1) * (3 # 10).

(** [translateX] and [translateZ] are the exact real sine and cosine
    placement; the program computes them in double precision. *)
Record ImageStyle := {
  translateX : R;
  translateZ : R;
  scale : Q;
  zIndex : Z;
  opacity : Q
}.

Section Component.

Variable totalImages : Z.

Definition finalOffset (st : CarouselState) (index : Z) : option Q :=
  match JS.rem (index - currentIndex st + totalImages) totalImages with
  | None => None
  | Some offset =>
      let adjustedOffset :=
        if JS.gt (inject_Z offset) (inject_Z totalImages / 2)
        then offset - totalImages else offset in
      Some (inject_Z adjustedOffset + dragOffset st / 100)%Q
  end.

Definition getImageStyle (st : CarouselState) (index : Z) : option ImageStyle :=
  match finalOffset st index with
  | None => None
  | Some final =>
      let absOffset := Qabs final in
      let angle := (Q2R final * 45)%R in
      let radius := 200%R in
      Some {| translateX := (sin (angle * PI / 180) * radius)%R;
              translateZ := (- cos (angle * PI / 180) * radius + radius)%R;
              scale := linearScale absOffset;
              zIndex := Z.max 0 (100 - Qfloor (absOffset * 10));
              opacity := opacityAt absOffset |}
  end.

Definition setCurrentIndex (i : Z) (st : CarouselState) : CarouselState :=
  mkState i (isDragging st) (startX st) (currentX st) (dragOffset st).

(** [nextImage] and [prevImage] read [isDragging] of the render that
    created them, the state [st] the handler runs in. *)
Definition nextImage (st : CarouselState) : option CarouselState :=
  if negb (isDragging st) then
    match JS.rem (currentIndex st + 1) totalImages with
    | None => None
    | Some i => Some (setCurrentIndex i st)
    end
  else Some st.

Definition prevImage (st : CarouselState) : option CarouselState :=
  if negb (isDragging st) then
    match JS.rem (currentIndex st - 1 + totalImages) totalImages with
    | None => None
    | Some i => Some (setCurrentIndex i st)
    end
  else Some st.

Definition handleStart (clientX : Q) (st : CarouselState) : CarouselState :=
  mkState (currentIndex st) true clientX clientX (dragOffset st).

Definition handleMove (clientX : Q) (st : CarouselState) : CarouselState :=
  if negb (isDragging st) then st
  else
    let diff := (clientX - startX st)%Q in
    mkState (currentIndex st) (isDragging st) (startX st) clientX
            (diff * (1 # 2))%Q.

Definition threshold : Q := 50.

Definition handleEnd (st : CarouselState) : option CarouselState :=
  if negb (isDragging st) then Some st
  else
    let diff := (currentX st - startX st)%Q in
    let navigated :=
      if JS.gt (Qabs diff) threshold then
        if JS.gt diff 0 then prevImage st else nextImage st
      else Some st in
    match navigated with
    | None => None
    | Some st' => Some (mkState (currentIndex st') false 0 0 0)
    end.

(** [onClick] of the image at [index]. *)
Definition selectImage (index : Z) (st : CarouselState) : CarouselState :=
  if negb (index =? currentIndex st) && negb (isDragging st)
  then setCurrentIndex index st else st.

Definition previousButton (st : CarouselState) : Button CarouselState :=
  {| disabled := isDragging st; onClick := prevImage |}.

Definition nextButton (st : CarouselState) : Button CarouselState :=
  {| disabled := isDragging st; onClick := nextImage |}.

Inductive Event :=
| PointerDown (clientX : Q)
| PointerMove (clientX : Q)
| PointerUp
| ClickPrevious
| ClickNext
| ClickImage (index : Z).

Definition dispatch (st : CarouselState) (e : Event) : option CarouselState :=
  match e with
  | PointerDown clientX => Some (handleStart clientX st)
  | PointerMove clientX => Some (handleMove clientX st)
  | PointerUp => handleEnd st
  | ClickPrevious => click (previousButton st) st
  | ClickNext => click (nextButton st) st
  | ClickImage index => Some (selectImage index st)
  end.

Fixpoint run (st : CarouselState) (es : list Event) : option CarouselState :=
  match es with
  | [] => Some st
  | e :: es' =>
      match dispatch st e with
      | None => None
      | Some st' => run st' es'
      end
  end.

End Component.

End Threshold.

(** ** The revision with a fixed fade distance
       (src/unnamed/part_002, second component)

    Its state, its offset computation, its depth scale and its handlers
    are, line for line, those of the current component; it differs in the
    optional [images] property and in the constant [MAX_OFFSET] that
    divides the opacity. *)

Module FixedFade.

Definition MAX_OFFSET : Q := 2.

Definition opacityAt (absOffset : Q) : Q :=
  Qmax 0 (1 - (absOffset - 1) / MAX_OFFSET).

Record ImageStyle := {
  translateX : Q;
  scale : R;
  zIndex : Z;
  opacity : Q
}.

Definition getImageStyle (totalImages : Z) (st : Continuous.CarouselState)
    (index : Z) : option ImageStyle :=
  match Continuous.adjustedOffset totalImages st index with
  | None => None
  | Some adjusted =>
      let absOffset := Qabs adjusted in
      Some {| translateX := adjusted * Continuous.SPREAD;
              scale := Continuous.depthScale (Q2R adjusted);
              zIndex := Z.max 0 (100 - Qfloor (absOffset * 10));
              opacity := opacityAt absOffset |}
  end.

End FixedFade.

(** ** The page (src/src/app/page.tsx) *)

Module Home.

Definition imageWidth : Z := 250.
Definition imageHeight : Z := 300.

(** A number inside a template literal. *)
Definition numberToString (z : Z) : string :=
  NilZero.string_of_int (Z.to_int z).

(** [Array.from({ length: 10 }, (_, i) => ...)]. *)
Definition images : list Continuous.Image :=
  map (fun i : Z =>
         {| Continuous.src := "/placeholder.png";
            Continuous.caption := "Image number " ++ numberToString (i + 1) |})
      (map Z.of_nat (seq 0 10)).

Definition totalImages : Z := Z.of_nat (List.length images).

Definition render (st : Continuous.CarouselState) : option Continuous.View :=
  Continuous.render images st.

End Home.

(** ** The Gaussian depth scale in double precision

    The same [gaussian] on binary64 numbers, whose [+], [-], [*] and [/]
    are those of JavaScript.  [Math.exp] belongs to the JavaScript
    runtime, which fixes its result only at NaN, at the zeros and at the
    infinities; everywhere else it is an implementation-approximated
    value, the parameter [approx]. *)

Module Double.

Definition mathExp (approx : float -> float) (x : float) : float :=
  match PrimFloat.classify x with
  | FloatClass.NaN => PrimFloat.nan
  | FloatClass.PInf => PrimFloat.infinity
  | FloatClass.NInf => 0%float
  | FloatClass.PZero | FloatClass.NZero => 1%float
  | _ => approx x
  end.

Definition MIN_SCALE : float := 0.5%float.
Definition MAX_SCALE : float := 1%float.
Definition SCALE_SPREAD : float := 0.5%float.

Definition gaussian (approx : float -> float)
    (x min max spread : float) : float :=
  let exp_ := ((- x) * x / (2 * spread))%float in
  ((max - min) * mathExp approx exp_ + min)%float.

Definition depthScale (approx : float -> float) (x : float) : float :=
  gaussian approx x MIN_SCALE MAX_SCALE SCALE_SPREAD.

End Double.

(** ** Event traces *)

Module Trace.

(** An event a browser whose pointer stays inside [0, width] can deliver
    to a carousel of [n] images: pointer positions lie in the viewport and
    a click lands on one of the rendered images. *)
Definition continuousEvent (n : Z) (width : Q) (e : Continuous.Event) : Prop :=
  match e with
  | Continuous.PointerDown x | Continuous.PointerMove x => (0 <= x <= width)%Q
  | Continuous.ClickImage i => 0 <= i < n
  | _ => True
  end.

Definition thresholdEvent (n : Z) (e : Threshold.Event) : Prop :=
  match e with
  | Threshold.ClickImage i => 0 <= i < n
  | _ => True
  end.

Definition thresholdPointerEvent (e : Threshold.Event) : bool :=
  match e with
  | Threshold.PointerDown _ | Threshold.PointerMove _ | Threshold.PointerUp => true
  | _ => false
  end.

End Trace.

(** * Properties *)

(** ** Sanity checks of the embedding on concrete inputs *)

Example offsetIndex_wraps_left :
  Continuous.offsetIndex 7 (-1) 0 = Some 6.
Proof. reflexivity. Qed.

Example seven_next_clicks_from_three_of_ten :
  Continuous.run 10 (Continuous.mkState 3 false 0 0)
    (repeat Continuous.ClickNext 7)
  = Some (Continuous.mkState 0 false 0 0).
Proof. reflexivity. Qed.

Example round_halves_toward_plus_infinity :
  JS.round (- (5 # 2)) = -2 /\ JS.round (5 # 2) = 3 /\ JS.round (- (26 # 10)) = -3.
Proof. repeat split; reflexivity. Qed.

(** ** Integer remainder *)

Lemma rem_in_range (a b : Z) :
  0 <= a -> 0 < b ->
  exists r, JS.rem a b = Some r /\ 0 <= r < b /\ r = a mod b.
Proof.
  intros Ha Hb. unfold JS.rem.
  destruct (Z.eqb_spec b 0) as [E | _]; [lia |].
  exists (Z.rem a b). rewrite Z.rem_mod_nonneg by lia.
  split; [reflexivity |]. split; [apply Z.mod_pos_bound; lia | reflexivity].
Qed.

Lemma rem_negative (a b : Z) :
  a < 0 -> 0 < b ->
  exists r, JS.rem a b = Some r /\ r <= 0.
Proof.
  intros Ha Hb. unfold JS.rem.
  destruct (Z.eqb_spec b 0) as [E | _]; [lia |].
  exists (Z.rem a b). split; [reflexivity |].
  apply Z.rem_nonpos; lia.
Qed.

(** ** Rounding of rationals *)

Lemma Qfloor_unique (q : Q) (m : Z) :
  (inject_Z m <= q)%Q -> (q < inject_Z (m + 1))%Q -> Qfloor q = m.
Proof.
  intros Hlo Hhi.
  pose proof (Qfloor_le q) as H1.
  pose proof (Qlt_floor q) as H2.
  assert (A : (inject_Z m < inject_Z (Qfloor q + 1))%Q) by lra.
  assert (B : (inject_Z (Qfloor q) < inject_Z (m + 1))%Q) by lra.
  rewrite <- Zlt_Qlt in A, B. lia.
Qed.

Lemma round_zero (q : Q) : (q == 0)%Q -> JS.round q = 0.
Proof.
  intros E. unfold JS.round. apply Qfloor_unique; simpl; rewrite E.
  - unfold Qle; simpl; lia.
  - unfold Qlt; simpl; lia.
Qed.

(** ** Index updates *)

(** The wrapped addition stays inside the index range as long as the
    sum it reduces is not negative. *)
Lemma offsetIndex_in_range (n c delta : Z) :
  1 <= n -> 0 <= c < n -> - (c + n) <= delta ->
  exists r, Continuous.offsetIndex n delta c = Some r /\ 0 <= r < n.
Proof.
  intros Hn Hc Hd. unfold Continuous.offsetIndex.
  destruct (rem_in_range (c + delta + n) n) as (r & E & R & _); [lia | lia |].
  exists r. split; assumption.
Qed.

Lemma offsetIndex_zero (n c : Z) :
  1 <= n -> 0 <= c < n -> Continuous.offsetIndex n 0 c = Some c.
Proof.
  intros Hn Hc. unfold Continuous.offsetIndex.
  destruct (rem_in_range (c + 0 + n) n) as (r & E & _ & M); [lia | lia |].
  rewrite E, M. f_equal.
  replace (c + 0 + n) with (c + 1 * n) by lia.
  rewrite Z.mod_add by lia. apply Z.mod_small; lia.
Qed.

(** Below that bound the remainder is taken of a negative sum and is
    never positive. *)
Lemma offsetIndex_below_range (n c delta : Z) :
  1 <= n -> delta < - (c + n) ->
  exists r, Continuous.offsetIndex n delta c = Some r /\ r <= 0.
Proof.
  intros Hn Hd. unfold Continuous.offsetIndex.
  apply rem_negative; lia.
Qed.

(** C1 (defect): a rightward drag of 1600 pixels over seven images commits
    the delta -8, and the wrapped addition [(0 + -8 + 7) % 7] leaves
    currentIndex at -1, outside [0, 7); the next render then reads the
    caption of a missing image. *)
Theorem long_rightward_drag_escapes_index_range :
  Continuous.run 7 Continuous.initialState
    [Continuous.PointerDown 0; Continuous.PointerMove 1600; Continuous.PointerUp]
  = Some (Continuous.mkState (-1) false 0 0)
  /\ Continuous.offsetIndex 7 (-8) 0 = Some (-1)
  /\ Continuous.offsetIndex 7 (-1) 0 = Some 6
  /\ Continuous.render
       (repeat {| Continuous.src := "/placeholder.png"; Continuous.caption := "" |} 7)
       (Continuous.mkState (-1) false 0 0) = None.
Proof. repeat split; reflexivity. Qed.

(** ** Gestures *)

Lemma continuous_run_moves (n : Z) (moves : list Q) :
  forall c s y rest,
    exists y',
      Continuous.run n (Continuous.mkState c true s y)
        (map Continuous.PointerMove moves ++ rest)
      = Continuous.run n (Continuous.mkState c true s y') rest.
Proof.
  induction moves as [| m moves IH]; intros c s y rest.
  - exists y. reflexivity.
  - destruct (IH c s m rest) as (y' & E). exists y'. exact E.
Qed.

Lemma threshold_run_moves (n : Z) (moves : list Q) :
  forall c s y d rest,
    exists y' d',
      Threshold.run n (Threshold.mkState c true s y d)
        (map Threshold.PointerMove moves ++ rest)
      = Threshold.run n (Threshold.mkState c true s y' d') rest.
Proof.
  induction moves as [| m moves IH]; intros c s y d rest.
  - exists y, d. reflexivity.
  - destruct (IH c s m ((m - s) * (1 # 2))%Q rest) as (y' & d' & E).
    exists y', d'. exact E.
Qed.

(** Ending a drag under the threshold policy: [prevImage] and [nextImage]
    are called while [isDragging] still holds, so their guard keeps the
    index where it is. *)
Lemma threshold_handleEnd_keeps_index (n : Z) (st : Threshold.CarouselState) :
  exists st', Threshold.handleEnd n st = Some st'
    /\ Threshold.currentIndex st' = Threshold.currentIndex st.
Proof.
  unfold Threshold.handleEnd, Threshold.prevImage, Threshold.nextImage.
  destruct (Threshold.isDragging st); simpl.
  - destruct (JS.gt _ Threshold.threshold); [destruct (JS.gt _ 0) |];
      eexists; split; reflexivity.
  - exists st. split; reflexivity.
Qed.

Lemma continuous_handleEnd_zero (n c : Z) (s y : Q) :
  1 <= n -> 0 <= c < n -> (y == s)%Q ->
  Continuous.handleEnd n (Continuous.mkState c true s y)
  = Some (Continuous.mkState c false 0 0).
Proof.
  intros Hn Hc E.
  unfold Continuous.handleEnd, Continuous.offsetImage, Continuous.dragDelta.
  cbn [Continuous.isDragging negb Continuous.currentX Continuous.startX
       Continuous.currentIndex].
  rewrite round_zero by (rewrite E; field; discriminate).
  change (- 0) with 0. rewrite offsetIndex_zero by assumption. reflexivity.
Qed.

(** C7: a completed drag whose last pointer position equals its first one
    leaves currentIndex where it was, under the continuous and under the
    threshold commit policy, from every state whose currentIndex is a valid
    index. *)
Theorem zero_distance_drag_keeps_index (n c : Z) (x x' : Q) (moves : list Q) :
  1 <= n -> 0 <= c < n -> (x' == x)%Q ->
  (forall st, Continuous.currentIndex st = c ->
     exists st',
       Continuous.run n st
         (Continuous.PointerDown x :: map Continuous.PointerMove moves
            ++ [Continuous.PointerMove x'; Continuous.PointerUp]) = Some st'
       /\ Continuous.currentIndex st' = c /\ Continuous.isDragging st' = false)
  /\
  (forall st, Threshold.currentIndex st = c ->
     exists st',
       Threshold.run n st
         (Threshold.PointerDown x :: map Threshold.PointerMove moves
            ++ [Threshold.PointerMove x'; Threshold.PointerUp]) = Some st'
       /\ Threshold.currentIndex st' = c /\ Threshold.isDragging st' = false).
Proof.
  intros Hn Hc Hx. split; intros st Hst.
  - cbn [Continuous.run Continuous.dispatch]. unfold Continuous.handleStart.
    destruct (continuous_run_moves n moves (Continuous.currentIndex st) x x
                [Continuous.PointerMove x'; Continuous.PointerUp]) as (y & E).
    rewrite E. cbn [Continuous.run Continuous.dispatch].
    unfold Continuous.handleMove. cbn [Continuous.isDragging negb].
    cbn [Continuous.currentIndex Continuous.startX].
    rewrite Hst, continuous_handleEnd_zero by assumption.
    eexists. repeat split.
  - cbn [Threshold.run Threshold.dispatch]. unfold Threshold.handleStart.
    destruct (threshold_run_moves n moves (Threshold.currentIndex st) x x
                (Threshold.dragOffset st)
                [Threshold.PointerMove x'; Threshold.PointerUp]) as (y & d & E).
    rewrite E. cbn [Threshold.run Threshold.dispatch].
    unfold Threshold.handleMove at 1. cbn [Threshold.isDragging negb].
    cbn [Threshold.currentIndex Threshold.startX].
    unfold Threshold.handleEnd. cbn [Threshold.isDragging negb Threshold.currentX Threshold.startX].
    assert (G : JS.gt (Qabs (x' - x)) Threshold.threshold = false).
    { unfold JS.gt. apply negb_false_iff, Qle_bool_iff.
      assert (Z0 : (x' - x == 0)%Q) by (rewrite Hx; ring).
      rewrite Z0. discriminate. }
    rewrite G. eexists. repeat split. exact Hst.
Qed.

(** C6 (defect): under the threshold policy a drag of 40 pixels leaves
    currentIndex unchanged, and so does a drag of 60 pixels: [handleEnd]
    calls [prevImage] while [isDragging] is still set, and the guard of
    [prevImage] drops the update.  With seven images and currentIndex 0
    the index stays 0, where the previous-image step itself leads to 6. *)
Theorem threshold_drag_of_60px_keeps_index (n c : Z) (x : Q) :
  Threshold.run n (Threshold.mkState c false 0 0 0)
    [Threshold.PointerDown x; Threshold.PointerMove (x + 40); Threshold.PointerUp]
  = Some (Threshold.mkState c false 0 0 0)
  /\ Threshold.run n (Threshold.mkState c false 0 0 0)
       [Threshold.PointerDown x; Threshold.PointerMove (x + 60); Threshold.PointerUp]
     = Some (Threshold.mkState c false 0 0 0)
  /\ Threshold.run 7 Threshold.initialState
       [Threshold.PointerDown 0; Threshold.PointerMove 60; Threshold.PointerUp]
     = Some Threshold.initialState
  /\ JS.gt (Qabs (60 - 0)) Threshold.threshold = true
  /\ JS.gt (60 - 0) 0 = true
  /\ Threshold.prevImage 7 Threshold.initialState
     = Some (Threshold.mkState 6 false 0 0 0).
Proof.
  assert (G : forall d : Q,
    Threshold.run n (Threshold.mkState c false 0 0 0)
      [Threshold.PointerDown x; Threshold.PointerMove d; Threshold.PointerUp]
    = Some (Threshold.mkState c false 0 0 0)).
  { intros d. cbn [Threshold.run Threshold.dispatch].
    unfold Threshold.handleStart, Threshold.handleMove.
    cbn [Threshold.isDragging negb Threshold.currentIndex Threshold.startX
         Threshold.dragOffset].
    destruct (threshold_handleEnd_keeps_index n
      (Threshold.mkState c true x d ((d - x) * (1 # 2))%Q)) as (st' & E & I).
    rewrite E. f_equal.
    unfold Threshold.handleEnd in E.
    cbn [Threshold.isDragging negb] in E.
    destruct (if JS.gt _ Threshold.threshold then _ else _) as [s |]; [| discriminate].
    injection E as <-. cbn [Threshold.currentIndex] in I. rewrite I. reflexivity. }
  repeat split; try apply G; reflexivity.
Qed.

(** ** Discrete navigation *)

(** C8: while a drag is in flight ([isDragging] set) neither arrow button
    nor a click on an image changes the state, in the current component
    (buttons disabled, image click guarded) and in the threshold revision
    (guards inside [prevImage], [nextImage] and the image click). *)
Theorem navigation_disabled_while_dragging (n : Z) :
  (forall st, Continuous.isDragging st = true ->
     Continuous.dispatch n st Continuous.ClickPrevious = Some st
     /\ Continuous.dispatch n st Continuous.ClickNext = Some st
     /\ forall i, Continuous.dispatch n st (Continuous.ClickImage i) = Some st)
  /\
  (forall st, Threshold.isDragging st = true ->
     Threshold.dispatch n st Threshold.ClickPrevious = Some st
     /\ Threshold.dispatch n st Threshold.ClickNext = Some st
     /\ Threshold.prevImage n st = Some st
     /\ Threshold.nextImage n st = Some st
     /\ forall i, Threshold.dispatch n st (Threshold.ClickImage i) = Some st).
Proof.
  split; intros st D.
  - cbn [Continuous.dispatch]. unfold click, Continuous.selectImage.
    cbn [disabled Continuous.previousButton Continuous.nextButton].
    rewrite D. repeat split. intros i. rewrite andb_false_r. reflexivity.
  - cbn [Threshold.dispatch].
    unfold click, Threshold.selectImage, Threshold.prevImage, Threshold.nextImage.
    cbn [disabled Threshold.previousButton Threshold.nextButton].
    rewrite D. repeat split. intros i. rewrite andb_false_r. reflexivity.
Qed.

Lemma navigation_disabled_while_dragging_witness :
  Continuous.isDragging (Continuous.mkState 2 true 10 35) = true
  /\ Continuous.dispatch 7 (Continuous.mkState 2 true 10 35) Continuous.ClickNext
     = Some (Continuous.mkState 2 true 10 35)
  /\ Threshold.isDragging (Threshold.mkState 2 true 10 35 (25 # 2)) = true
  /\ Threshold.nextImage 7 (Threshold.mkState 2 true 10 35 (25 # 2))
     = Some (Threshold.mkState 2 true 10 35 (25 # 2)).
Proof.
  split; [reflexivity |].
  split; [apply (proj1 (navigation_disabled_while_dragging 7)); reflexivity |].
  split; [reflexivity |].
  apply (proj2 (navigation_disabled_while_dragging 7)); reflexivity.
Defined.

(** In the current component the guard sits on the buttons alone: the
    callback [offsetImage] they share with [handleEnd] moves the index
    whatever [isDragging] says. *)
Example offsetImage_itself_is_unguarded :
  Continuous.offsetImage 7 1 (Continuous.mkState 2 true 10 35)
  = Some (Continuous.mkState 3 true 10 35).
Proof. reflexivity. Qed.

(** C9: clicking the image that is already centered leaves the whole
    carousel state unchanged, at rest and during a drag alike, in both
    revisions of the component. *)
Theorem select_centered_image_is_identity (n : Z) :
  (forall st : Continuous.CarouselState,
     Continuous.selectImage (Continuous.currentIndex st) st = st
     /\ Continuous.dispatch n st (Continuous.ClickImage (Continuous.currentIndex st))
        = Some st)
  /\
  (forall st : Threshold.CarouselState,
     Threshold.selectImage (Threshold.currentIndex st) st = st
     /\ Threshold.dispatch n st (Threshold.ClickImage (Threshold.currentIndex st))
        = Some st).
Proof.
  split; intros st.
  - cbn [Continuous.dispatch]. unfold Continuous.selectImage.
    rewrite Z.eqb_refl. split; reflexivity.
  - cbn [Threshold.dispatch]. unfold Threshold.selectImage.
    rewrite Z.eqb_refl. split; reflexivity.
Qed.

Lemma zero_distance_drag_keeps_index_witness :
  1 <= 7 /\ 0 <= 2 < 7 /\ (100 == 100)%Q
  /\ (exists st',
        Continuous.run 7 (Continuous.mkState 2 false 0 0)
          [Continuous.PointerDown 100; Continuous.PointerMove 130;
           Continuous.PointerMove 90; Continuous.PointerMove 100;
           Continuous.PointerUp] = Some st'
        /\ Continuous.currentIndex st' = 2 /\ Continuous.isDragging st' = false).
Proof.
  split; [lia |]. split; [lia |]. split; [reflexivity |].
  apply (proj1 (zero_distance_drag_keeps_index 7 2 100 100 [130; 90]%Q
                  ltac:(lia) ltac:(lia) ltac:(reflexivity))).
  reflexivity.
Defined.

(** ** Depth scale *)

Local Open Scope R_scope.

Lemma exp_le_mono (x y : R) : x <= y -> exp x <= exp y.
Proof.
  intros [L | ->].
  - left. apply exp_increasing. exact L.
  - right. reflexivity.
Qed.

Lemma depthScale_eq (x : R) :
  Continuous.depthScale x = / 2 * exp (- (x * x)) + / 2.
Proof.
  unfold Continuous.depthScale, Continuous.gaussian,
    Continuous.MIN_SCALE, Continuous.MAX_SCALE, Continuous.SCALE_SPREAD.
  cbv zeta.
  replace (- x * x / (2 * (1 / 2))) with (- (x * x)) by field.
  lra.
Qed.

Lemma exp_neg_square_le_1 (x : R) : exp (- (x * x)) <= 1.
Proof.
  rewrite <- exp_0. apply exp_le_mono. nra.
Qed.

Lemma exp_neg_square_lt_1 (x : R) : x <> 0 -> exp (- (x * x)) < 1.
Proof.
  intros N. rewrite <- exp_0. apply exp_increasing.
  assert (0 < x * x) by (destruct (Rtotal_order x 0) as [L | [E | G]]; [nra | contradiction | nra]).
  lra.
Qed.

Lemma square_le_of_abs_le (a b : R) : Rabs a <= Rabs b -> a * a <= b * b.
Proof.
  intros H.
  apply Rsqr_le_abs_1 in H. exact H.
Qed.


(** The same happens at offsets a carousel reaches: with fourteen images
    the farthest image is at offset 7, and wherever [Math.exp (-49)] is
    the double nearest to e^-49 the sum [0.5 * exp + 0.5] rounds to
    MIN_SCALE. *)
Example gaussian_scale_at_offset_seven (approx : float -> float) :
  approx (-49)%float = 0x1.3ce9b9de78f85p-71%float ->
  Double.depthScale approx 7%float = Double.MIN_SCALE.
Proof.
  intros H. unfold Double.depthScale, Double.gaussian. cbv zeta.
  assert (E : (- (7) * 7 / (2 * Double.SCALE_SPREAD))%float = (-49)%float)
    by reflexivity.
  rewrite E.
  change (Double.mathExp approx (-49)%float) with (approx (-49)%float).
  rewrite H. reflexivity.
Qed.


Local Close Scope R_scope.

(** Decide the rational comparisons a goal branches on. *)
Ltac q_cases :=
  repeat match goal with
  | |- context [Qeq_bool ?a ?b] =>
      let E := fresh "E" in
      destruct (Qeq_bool a b) eqn:E;
      [apply Qeq_bool_iff in E | apply Qeq_bool_neq in E]
  | |- context [Qle_bool ?a ?b] =>
      let E := fresh "E" in
      destruct (Qle_bool a b) eqn:E;
      [apply Qle_bool_iff in E
      | assert (~ (a <= b)%Q)
          by (let H := fresh in intros H; apply Qle_bool_iff in H; congruence);
        clear E]
  end.

Lemma linearScale_antitone (u v : Q) :
  (0 <= u)%Q -> (u <= v)%Q ->
  (Threshold.linearScale v <= Threshold.linearScale u)%Q.
Proof.
  intros U V. unfold Threshold.linearScale. q_cases; lra.
Qed.

Lemma linearScale_max (u : Q) :
  (0 <= u)%Q ->
  (Threshold.linearScale u <= 1)%Q
  /\ ((Threshold.linearScale u == 1)%Q <-> (u == 0)%Q).
Proof.
  intros U. unfold Threshold.linearScale. q_cases; split; try split; intros; lra.
Qed.

Lemma Qabs_zero_iff (x : Q) : (Qabs x == 0)%Q <-> (x == 0)%Q.
Proof.
  split; intros H.
  - pose proof (Qle_Qabs x) as A. pose proof (Qle_Qabs (- x)) as B.
    rewrite Qabs_opp in B. lra.
  - rewrite H. reflexivity.
Qed.

(** The scale a style carries is the scale function at the signed offset
    of the image. *)
Lemma continuous_style_scale (n : Z) st index a :
  Continuous.adjustedOffset n st index = Some a ->
  exists s, Continuous.getImageStyle n st index = Some s
    /\ Continuous.scale s = Continuous.depthScale (Q2R a).
Proof.
  intros E. unfold Continuous.getImageStyle. rewrite E.
  eexists. split; reflexivity.
Qed.

Lemma threshold_style_scale (n : Z) st index f :
  Threshold.finalOffset n st index = Some f ->
  exists s, Threshold.getImageStyle n st index = Some s
    /\ Threshold.scale s = Threshold.linearScale (Qabs f).
Proof.
  intros E. unfold Threshold.getImageStyle. rewrite E.
  eexists. split; reflexivity.
Qed.

(** C5: the depth scale is largest exactly at signed offset 0 and does
    not increase with the distance from the center: whenever |a| <= |b| the
    scale at a is at least the scale at b.  This holds for the Gaussian
    scale of the current component and for the piecewise-linear scale of
    the threshold revision. *)
Theorem depth_scale_peaks_at_center_and_decays :
  (forall x : R,
     (Continuous.depthScale x <= Continuous.MAX_SCALE)%R
     /\ (Continuous.depthScale x = Continuous.MAX_SCALE <-> x = 0%R))
  /\ (forall a b : R,
        (Rabs a <= Rabs b)%R ->
        (Continuous.depthScale b <= Continuous.depthScale a)%R)
  /\ (forall x : Q,
        (Threshold.linearScale (Qabs x) <= 1)%Q
        /\ ((Threshold.linearScale (Qabs x) == 1)%Q <-> (x == 0)%Q))
  /\ (forall a b : Q,
        (Qabs a <= Qabs b)%Q ->
        (Threshold.linearScale (Qabs b) <= Threshold.linearScale (Qabs a))%Q).
Proof.
  split; [| split; [| split]].
  - intros x. rewrite depthScale_eq. unfold Continuous.MAX_SCALE.
    split; [| split].
    + pose proof (exp_neg_square_le_1 x). lra.
    + intros H. destruct (Req_dec x 0) as [Z0 | N]; [exact Z0 |].
      pose proof (exp_neg_square_lt_1 x N). lra.
    + intros ->. replace (- (0 * 0))%R with 0%R by ring. rewrite exp_0. lra.
  - intros a b H. rewrite !depthScale_eq.
    apply square_le_of_abs_le in H.
    assert (exp (- (b * b)) <= exp (- (a * a)))%R by (apply exp_le_mono; lra).
    lra.
  - intros x. destruct (linearScale_max (Qabs x) (Qabs_nonneg x)) as [L M].
    split; [exact L |]. rewrite M. apply Qabs_zero_iff.
  - intros a b H. apply linearScale_antitone; [apply Qabs_nonneg | exact H].
Qed.

Lemma depth_scale_peaks_at_center_and_decays_witness :
  (Qabs 1 <= Qabs (- (5 # 2)))%Q
  /\ (Threshold.linearScale (Qabs (- (5 # 2))) <= Threshold.linearScale (Qabs 1))%Q
  /\ (Rabs 0 <= Rabs 1)%R
  /\ (Continuous.depthScale 1 <= Continuous.depthScale 0)%R.
Proof.
  assert (H : (Qabs 1 <= Qabs (- (5 # 2)))%Q) by (vm_compute; discriminate).
  assert (K : (Rabs 0 <= Rabs 1)%R) by (rewrite Rabs_R0, Rabs_R1; lra).
  split; [exact H |]. split; [| split; [exact K |]].
  - apply (proj2 (proj2 (proj2 depth_scale_peaks_at_center_and_decays))
             1%Q (- (5 # 2))%Q H).
  - apply (proj1 (proj2 depth_scale_peaks_at_center_and_decays) 0%R 1%R K).
Defined.

(** ** Signed circular offset *)

#[local] Instance trunc_comp : Proper (Qeq ==> eq) JS.trunc.
Proof.
  intros p q E. unfold JS.trunc.
  rewrite (Qleb_comp 0%Q 0%Q (Qeq_refl 0%Q) p q E).
  rewrite (Qfloor_comp p q E), (Qceiling_comp p q E). reflexivity.
Qed.

Lemma trunc_quotient_nonneg (k n : Z) :
  0 <= k -> 0 < n -> JS.trunc (inject_Z k / inject_Z n) = k / n.
Proof.
  intros Hk Hn. destruct n as [| p | p]; try lia.
  unfold JS.trunc.
  assert (P : (0 <= inject_Z k / inject_Z (Z.pos p))%Q).
  { unfold Qle, Qdiv, Qmult, Qinv, inject_Z. simpl. lia. }
  apply Qle_bool_iff in P. rewrite P.
  unfold Qdiv, Qmult, Qinv, inject_Z, Qfloor. simpl.
  rewrite Z.mul_1_r. reflexivity.
Qed.

Lemma fmod_of_integers (q : Q) (k n : Z) :
  0 <= k -> 0 < n -> (q == inject_Z k)%Q ->
  exists off, JS.fmod q (inject_Z n) = Some off /\ (off == inject_Z (k mod n))%Q.
Proof.
  intros Hk Hn E. unfold JS.fmod.
  destruct (Qeq_bool (inject_Z n) 0) eqn:B.
  - apply Qeq_bool_iff in B. unfold Qeq in B. simpl in B. lia.
  - eexists. split; [reflexivity |].
    assert (T : JS.trunc (q / inject_Z n) = k / n).
    { rewrite <- (trunc_quotient_nonneg k n) by assumption.
      apply trunc_comp. rewrite E. reflexivity. }
    rewrite T, E.
    rewrite Z.mod_eq by lia. unfold Qminus, Z.sub.
    rewrite inject_Z_plus, inject_Z_opp, inject_Z_mult. reflexivity.
Qed.

Lemma dragOffset_at_rest (st : Continuous.CarouselState) :
  (Continuous.currentX st == Continuous.startX st)%Q ->
  (Continuous.dragOffset st == 0)%Q.
Proof.
  intros E. unfold Continuous.dragOffset. rewrite E.
  unfold Continuous.SENSITIVITY. field.
Qed.

(** C4: with no drag in progress and i, c in [0, n), the signed circular
    offset of image i around center c lies in (-n/2, n/2] and is 0 for the
    centered image. *)
Theorem signed_offset_at_rest_in_half_open_range
    (n i c : Z) (st : Continuous.CarouselState) :
  1 <= n -> 0 <= i < n -> 0 <= c < n ->
  Continuous.currentIndex st = c ->
  (Continuous.currentX st == Continuous.startX st)%Q ->
  exists a,
    Continuous.adjustedOffset n st i = Some a
    /\ (- (inject_Z n / 2) < a)%Q /\ (a <= inject_Z n / 2)%Q
    /\ (i = c -> (a == 0)%Q).
Proof.
  intros Hn Hi Hc Hst Hx. subst c. unfold Continuous.adjustedOffset.
  set (k := i - Continuous.currentIndex st + n).
  destruct (fmod_of_integers
              (inject_Z (i - Continuous.currentIndex st)
               + Continuous.dragOffset st + inject_Z n)%Q k n)
    as (off & F & O); [lia | lia | |].
  { rewrite (dragOffset_at_rest st Hx). unfold k.
    rewrite !inject_Z_plus. ring. }
  cbv zeta. rewrite F. eexists. split; [reflexivity |].
  assert (R : 0 <= k mod n < n) by (apply Z.mod_pos_bound; lia).
  assert (R0 : (0 <= inject_Z (k mod n))%Q)
    by (change 0%Q with (inject_Z 0); rewrite <- Zle_Qle; lia).
  assert (R1 : (inject_Z (k mod n) < inject_Z n)%Q)
    by (rewrite <- Zlt_Qlt; lia).
  assert (N1 : (1 <= inject_Z n)%Q)
    by (change 1%Q with (inject_Z 1); rewrite <- Zle_Qle; lia).
  assert (C0 : i = Continuous.currentIndex st -> (off == 0)%Q).
  { intros ->. rewrite O. unfold k.
    replace (Continuous.currentIndex st - Continuous.currentIndex st + n)
      with (0 + 1 * n) by lia.
    rewrite Z.mod_add by lia. reflexivity. }
  unfold JS.gt. q_cases; cbn [negb];
    unfold Qdiv in *; change (/ 2)%Q with (1 # 2)%Q in *;
    (split; [| split]); try lra; intros I; specialize (C0 I); lra.
Qed.

Lemma signed_offset_at_rest_in_half_open_range_witness :
  exists a,
    Continuous.adjustedOffset 7 (Continuous.mkState 1 false 0 0) 5 = Some a
    /\ (- (inject_Z 7 / 2) < a)%Q /\ (a <= inject_Z 7 / 2)%Q
    /\ (5 = 1 -> (a == 0)%Q).
Proof.
  apply (signed_offset_at_rest_in_half_open_range 7 5 1
           (Continuous.mkState 1 false 0 0));
    [lia | lia | lia | reflexivity | reflexivity].
Defined.

Example signed_offset_wraps_to_the_left :
  exists a, Continuous.adjustedOffset 7 (Continuous.mkState 1 false 0 0) 5 = Some a
    /\ (a == - (3))%Q.
Proof. eexists. split; reflexivity. Qed.

(** ** Opacity *)

Lemma fmod_defined (q : Q) (n : Z) :
  n <> 0 -> exists off, JS.fmod q (inject_Z n) = Some off.
Proof.
  intros N. unfold JS.fmod.
  destruct (Qeq_bool (inject_Z n) 0) eqn:B.
  - apply Qeq_bool_iff in B. unfold Qeq in B. simpl in B. lia.
  - eexists. reflexivity.
Qed.

Lemma adjustedOffset_defined (n : Z) st index :
  n <> 0 -> exists a, Continuous.adjustedOffset n st index = Some a.
Proof.
  intros N. unfold Continuous.adjustedOffset. cbv zeta.
  destruct (fmod_defined
              (inject_Z (index - Continuous.currentIndex st)
               + Continuous.dragOffset st + inject_Z n)%Q n N) as (off & F).
  rewrite F. eexists. reflexivity.
Qed.

Lemma getImageStyle_defined (n : Z) st index :
  n <> 0 ->
  exists a, Continuous.adjustedOffset n st index = Some a
    /\ Continuous.getImageStyle n st index
       = Some {| Continuous.translateX := (a * Continuous.SPREAD)%Q;
                 Continuous.scale := Continuous.depthScale (Q2R a);
                 Continuous.zIndex := Z.max 0 (100 - Qfloor (Qabs a * 10));
                 Continuous.opacity := Continuous.opacityAt n (Qabs a) |}.
Proof.
  intros N. destruct (adjustedOffset_defined n st index N) as (a & E).
  exists a. split; [exact E |].
  unfold Continuous.getImageStyle. rewrite E. reflexivity.
Qed.

(** The opacity formula where its divisor is positive: it starts at
    [1 + 1/maxOffset] in the center, passes 1 at distance 1 and reaches 0
    at distance [maxOffset + 1]. *)
Lemma opacityAt_positive_divisor (n : Z) (u : Q) :
  1 <= Continuous.maxOffset n -> (0 <= u)%Q ->
  exists o,
    Continuous.opacityAt n u = Some o
    /\ (0 <= o)%Q
    /\ (o <= 1 + 1 / inject_Z (Continuous.maxOffset n))%Q
    /\ ((u == 0)%Q -> (o == 1 + 1 / inject_Z (Continuous.maxOffset n))%Q)
    /\ ((inject_Z (Continuous.maxOffset n) + 1 <= u)%Q -> (o == 0)%Q).
Proof.
  intros Hm Hu. unfold Continuous.opacityAt, JS.div.
  set (M := inject_Z (Continuous.maxOffset n)).
  assert (M1 : (1 <= M)%Q)
    by (unfold M; change 1%Q with (inject_Z 1); rewrite <- Zle_Qle; lia).
  clearbody M.
  destruct (Qeq_bool M 0) eqn:B; [apply Qeq_bool_iff in B; lra |].
  eexists. split; [reflexivity |].
  unfold Qdiv. set (t := (/ M)%Q).
  assert (T0 : (0 < t)%Q) by (apply Qinv_lt_0_compat; lra).
  assert (MT : (M * t == 1)%Q) by (apply Qmult_inv_r; lra).
  clearbody t.
  assert (UT : (0 <= u * t)%Q) by (apply Qmult_le_0_compat; lra).
  destruct (Q.max_spec 0 (1 - (u - 1) * t)) as [[L E] | [L E]]; rewrite E;
    repeat split; try lra; intros F;
    first
      [ assert (U0 : (u * t == 0)%Q) by (rewrite F; ring); lra
      | assert (P : (0 <= (u - 1 - M) * t)%Q)
          by (apply Qmult_le_0_compat; lra);
        lra ].
Qed.

(** C2 as stated fails: with ten images the centered image gets opacity
    4/3, above 1; an image dragged to signed offset 7/2, beyond
    maxOffset = 3, still has opacity 1/6; and with three images the
    centered image gets opacity 0. *)
Lemma opacity_outside_unit_interval_counterexample :
  (exists a s o,
     Continuous.adjustedOffset 10 Continuous.initialState 0 = Some a
     /\ (a == 0)%Q
     /\ Continuous.getImageStyle 10 Continuous.initialState 0 = Some s
     /\ Continuous.opacity s = Some o
     /\ (o == 4 # 3)%Q /\ ~ (o <= 1)%Q /\ ~ (o == 1)%Q)
  /\ (exists a s o,
        Continuous.adjustedOffset 10 (Continuous.mkState 0 true 0 100) 3 = Some a
        /\ (a == 7 # 2)%Q
        /\ Continuous.maxOffset 10 = 3
        /\ (inject_Z (Continuous.maxOffset 10) < Qabs a)%Q
        /\ Continuous.getImageStyle 10 (Continuous.mkState 0 true 0 100) 3 = Some s
        /\ Continuous.opacity s = Some o
        /\ (o == 1 # 6)%Q /\ ~ (o == 0)%Q)
  /\ (exists a s o,
        Continuous.adjustedOffset 3 Continuous.initialState 0 = Some a
        /\ (a == 0)%Q
        /\ Continuous.getImageStyle 3 Continuous.initialState 0 = Some s
        /\ Continuous.opacity s = Some o
        /\ (o == 0)%Q /\ ~ (o == 1)%Q).
Proof.
  split; [| split].
  - eexists _, _, _. split; [reflexivity |]. split; [reflexivity |].
    split; [reflexivity |]. split; [vm_compute; reflexivity |].
    split; [reflexivity |]. split; intros H; vm_compute in H;
      first [discriminate H | apply H; reflexivity].
  - eexists _, _, _. split; [reflexivity |]. split; [reflexivity |].
    split; [reflexivity |]. split; [reflexivity |].
    split; [reflexivity |]. split; [vm_compute; reflexivity |].
    split; [reflexivity |]. intros H; vm_compute in H; discriminate H.
  - eexists _, _, _. split; [reflexivity |]. split; [reflexivity |].
    split; [reflexivity |]. split; [vm_compute; reflexivity |].
    split; [reflexivity |]. intros H; vm_compute in H; discriminate H.
Qed.

(** C2 (amended): for n >= 6 images, where maxOffset = floor(n/2) - 2 is
    at least 1, the opacity of every image in every state is a number in
    [0, 1 + 1/maxOffset]; it is 1 + 1/maxOffset for the centered image
    (signed offset 0) and 0 for every image whose |signed offset| is at
    least maxOffset + 1. *)
Theorem opacity_bounds (n : Z) (st : Continuous.CarouselState) (index : Z) :
  6 <= n ->
  exists a s o,
    Continuous.adjustedOffset n st index = Some a
    /\ Continuous.getImageStyle n st index = Some s
    /\ Continuous.opacity s = Some o
    /\ (0 <= o)%Q
    /\ (o <= 1 + 1 / inject_Z (Continuous.maxOffset n))%Q
    /\ ((a == 0)%Q -> (o == 1 + 1 / inject_Z (Continuous.maxOffset n))%Q)
    /\ ((inject_Z (Continuous.maxOffset n) + 1 <= Qabs a)%Q -> (o == 0)%Q).
Proof.
  intros Hn.
  destruct (getImageStyle_defined n st index) as (a & A & G); [lia |].
  assert (Hm : 1 <= Continuous.maxOffset n).
  { unfold Continuous.maxOffset.
    assert (3 <= n / 2) by (apply Z.div_le_lower_bound; lia). lia. }
  destruct (opacityAt_positive_divisor n (Qabs a) Hm (Qabs_nonneg a))
    as (o & O & Lo & Hi & C & F).
  exists a. eexists. exists o.
  split; [exact A |]. split; [exact G |]. cbn [Continuous.opacity].
  split; [exact O |]. split; [exact Lo |]. split; [exact Hi |].
  split; [| exact F].
  intros Z0. apply C. apply Qabs_zero_iff. exact Z0.
Qed.

Lemma opacity_bounds_witness :
  6 <= 10
  /\ exists a s o,
       Continuous.adjustedOffset 10 (Continuous.mkState 0 true 0 100) 3 = Some a
       /\ Continuous.getImageStyle 10 (Continuous.mkState 0 true 0 100) 3 = Some s
       /\ Continuous.opacity s = Some o
       /\ (0 <= o)%Q
       /\ (o <= 1 + 1 / inject_Z (Continuous.maxOffset 10))%Q
       /\ ((a == 0)%Q -> (o == 1 + 1 / inject_Z (Continuous.maxOffset 10))%Q)
       /\ ((inject_Z (Continuous.maxOffset 10) + 1 <= Qabs a)%Q -> (o == 0)%Q).
Proof.
  split; [lia |].
  apply (opacity_bounds 10 (Continuous.mkState 0 true 0 100) 3). lia.
Defined.

(** ** Empty image sequence *)

Lemma get_in_range {A : Type} (array : list A) (i : Z) :
  0 <= i < Z.of_nat (List.length array) ->
  exists x, JS.get array i = Some x.
Proof.
  intros H. unfold JS.get.
  destruct (Z.ltb_spec i 0) as [L | _]; [lia |].
  destruct (nth_error array (Z.to_nat i)) as [x |] eqn:E.
  - exists x. reflexivity.
  - apply nth_error_None in E. lia.
Qed.

Lemma get_empty {A : Type} (i : Z) : JS.get (@nil A) i = None.
Proof.
  unfold JS.get. destruct (i <? 0); [reflexivity |].
  destruct (Z.to_nat i); reflexivity.
Qed.

(** C3 as stated fails: nothing guards the empty image sequence.  The
    first render reads the caption of the missing [images[0]] and throws,
    and an arrow click takes a remainder by zero. *)
Lemma empty_carousel_unguarded_counterexample :
  Continuous.render [] Continuous.initialState = None
  /\ Continuous.offsetIndex 0 1 0 = None
  /\ Continuous.dispatch 0 Continuous.initialState Continuous.ClickNext = None.
Proof. repeat split; reflexivity. Qed.

(** C3 (amended): with a non-empty image sequence and currentIndex in
    [0, n) a render succeeds, shows the caption of [images[currentIndex]],
    computes every image style without a remainder by zero, and no index
    update takes a remainder by zero.  The empty sequence is not guarded:
    every render of it fails on the caption of a missing image and every
    index update is a remainder by zero. *)
Theorem render_guarded_only_by_nonempty_images :
  (forall (images : list Continuous.Image) (st : Continuous.CarouselState),
     images <> [] ->
     0 <= Continuous.currentIndex st < Z.of_nat (List.length images) ->
     exists v image,
       Continuous.render images st = Some v
       /\ JS.get images (Continuous.currentIndex st) = Some image
       /\ Continuous.captionText v = Continuous.caption image
       /\ List.length (Continuous.items v) = List.length images
       /\ (forall s, In s (Continuous.items v) -> s <> None)
       /\ (forall offset,
             Continuous.offsetImage (Z.of_nat (List.length images)) offset st <> None))
  /\ (forall st, Continuous.render [] st = None)
  /\ (forall offset st, Continuous.offsetImage 0 offset st = None).
Proof.
  split; [| split].
  - intros images st NE Hc.
    destruct (get_in_range images _ Hc) as (image & G).
    assert (N : Z.of_nat (List.length images) <> 0) by lia.
    unfold Continuous.render. rewrite G.
    eexists. exists image. split; [reflexivity |]. split; [reflexivity |].
    cbn [Continuous.captionText Continuous.items].
    split; [reflexivity |]. split; [| split].
    + unfold JS.indices. rewrite !length_map, length_seq. reflexivity.
    + intros s Hs. apply in_map_iff in Hs. destruct Hs as (i & <- & _).
      destruct (getImageStyle_defined _ st i N) as (a & _ & E).
      rewrite E. discriminate.
    + intros offset. unfold Continuous.offsetImage, Continuous.offsetIndex, JS.rem.
      destruct (Z.eqb_spec (Z.of_nat (List.length images)) 0) as [E | _]; [lia |].
      discriminate.
  - intros st. unfold Continuous.render. rewrite get_empty. reflexivity.
  - intros offset st. reflexivity.
Qed.

Lemma render_guarded_only_by_nonempty_images_witness :
  exists v image,
    Continuous.render
      [ {| Continuous.src := "/placeholder.png"; Continuous.caption := "Image number 1" |};
        {| Continuous.src := "/placeholder.png"; Continuous.caption := "Image number 2" |} ]
      (Continuous.mkState 1 false 0 0) = Some v
    /\ JS.get
         [ {| Continuous.src := "/placeholder.png"; Continuous.caption := "Image number 1" |};
           {| Continuous.src := "/placeholder.png"; Continuous.caption := "Image number 2" |} ]
         1 = Some image
    /\ Continuous.captionText v = Continuous.caption image
    /\ Continuous.captionText v = "Image number 2"%string.
Proof.
  destruct (proj1 render_guarded_only_by_nonempty_images
    [ {| Continuous.src := "/placeholder.png"; Continuous.caption := "Image number 1" |};
      {| Continuous.src := "/placeholder.png"; Continuous.caption := "Image number 2" |} ]
    (Continuous.mkState 1 false 0 0))
    as (v & image & R & G & C & _).
  - discriminate.
  - cbn. lia.
  - exists v, image. split; [exact R |]. split; [exact G |]. split; [exact C |].
    rewrite C. cbn in G. injection G as <-. reflexivity.
Defined.


(** * Further properties of the gesture controller *)

(** ** Committing a drag *)

Lemma round_le (q : Q) (m : Z) :
  (q < inject_Z m + (1 # 2))%Q -> JS.round q <= m.
Proof.
  intros H. unfold JS.round.
  pose proof (Qfloor_le (q + (1 # 2))) as F.
  assert (L : (inject_Z (Qfloor (q + (1 # 2))) < inject_Z (m + 1))%Q).
  { rewrite inject_Z_plus. change (inject_Z 1) with 1%Q. lra. }
  rewrite <- Zlt_Qlt in L. lia.
Qed.

Lemma continuous_handleEnd_commit (n c : Z) (s y : Q) :
  1 <= n -> 0 <= c < n ->
  JS.round ((y - s) / Continuous.SENSITIVITY) <= c + n ->
  Continuous.handleEnd n (Continuous.mkState c true s y)
  = Some (Continuous.mkState
            ((c - JS.round ((y - s) / Continuous.SENSITIVITY)) mod n) false 0 0).
Proof.
  intros Hn Hc Hr.
  unfold Continuous.handleEnd, Continuous.offsetImage, Continuous.dragDelta,
    Continuous.offsetIndex.
  cbn [Continuous.isDragging negb Continuous.currentX Continuous.startX
       Continuous.currentIndex].
  set (r := JS.round ((y - s) / Continuous.SENSITIVITY)) in *.
  destruct (rem_in_range (c + - r + n) n) as (m & E & _ & M); [lia | lia |].
  rewrite E, M. cbn [Continuous.setCurrentIndex Continuous.currentIndex].
  replace (c + - r + n) with (c - r + 1 * n) by lia.
  rewrite Z.mod_add by lia. reflexivity.
Qed.

Lemma continuous_moves_last (n : Z) (moves : list Q) :
  forall c s y y' rest,
    Continuous.run n (Continuous.mkState c true s y)
      (map Continuous.PointerMove moves ++ Continuous.PointerMove y' :: rest)
    = Continuous.run n (Continuous.mkState c true s y') rest.
Proof.
  induction moves as [| m moves IH]; intros c s y y' rest.
  - reflexivity.
  - exact (IH c s m y' rest).
Qed.

Lemma threshold_moves_last (n : Z) (moves : list Q) :
  forall c s y d y' rest,
    Threshold.run n (Threshold.mkState c true s y d)
      (map Threshold.PointerMove moves ++ Threshold.PointerMove y' :: rest)
    = Threshold.run n
        (Threshold.mkState c true s y' ((y' - s) * (1 # 2))%Q) rest.
Proof.
  induction moves as [| m moves IH]; intros c s y d y' rest.
  - reflexivity.
  - exact (IH c s m ((m - s) * (1 # 2))%Q y' rest).
Qed.

(** X1: a completed drag from pointer position x to position y moves the
    index by minus the rounded number of SENSITIVITY-sized steps, wrapped
    modulo n, and leaves the carousel at rest with cleared positions,
    provided the rounded step count does not exceed currentIndex + n. *)
Theorem continuous_drag_commits_rounded_steps
    (n c : Z) (x y : Q) (st : Continuous.CarouselState) :
  1 <= n -> 0 <= c < n -> Continuous.currentIndex st = c ->
  JS.round ((y - x) / Continuous.SENSITIVITY) <= c + n ->
  Continuous.run n st
    [Continuous.PointerDown x; Continuous.PointerMove y; Continuous.PointerUp]
  = Some (Continuous.mkState
            ((c - JS.round ((y - x) / Continuous.SENSITIVITY)) mod n) false 0 0).
Proof.
  intros Hn Hc Hst Hr.
  cbn [Continuous.run Continuous.dispatch].
  unfold Continuous.handleStart, Continuous.handleMove.
  cbn [Continuous.isDragging negb Continuous.currentIndex Continuous.startX].
  rewrite Hst, continuous_handleEnd_commit by assumption. reflexivity.
Qed.

Lemma continuous_drag_commits_rounded_steps_witness :
  Continuous.run 7 (Continuous.mkState 2 false 0 0)
    [Continuous.PointerDown 100; Continuous.PointerMove 720; Continuous.PointerUp]
  = Some (Continuous.mkState
            ((2 - JS.round ((720 - 100) / Continuous.SENSITIVITY)) mod 7) false 0 0).
Proof.
  apply (continuous_drag_commits_rounded_steps 7 2 100 720
           (Continuous.mkState 2 false 0 0));
    [lia | lia | reflexivity | vm_compute; discriminate].
Defined.

(** X2: the outcome of a drag depends only on where the pointer went down
    and where it was last seen: intermediate pointer moves can be dropped,
    in the current component and in the threshold revision. *)
Theorem drag_depends_only_on_endpoints (n : Z) (x y : Q) (moves : list Q) :
  (forall st,
     Continuous.run n st
       (Continuous.PointerDown x :: map Continuous.PointerMove moves
          ++ [Continuous.PointerMove y; Continuous.PointerUp])
     = Continuous.run n st
         [Continuous.PointerDown x; Continuous.PointerMove y; Continuous.PointerUp])
  /\
  (forall st,
     Threshold.run n st
       (Threshold.PointerDown x :: map Threshold.PointerMove moves
          ++ [Threshold.PointerMove y; Threshold.PointerUp])
     = Threshold.run n st
         [Threshold.PointerDown x; Threshold.PointerMove y; Threshold.PointerUp]).
Proof.
  split; intros st.
  - cbn [Continuous.run Continuous.dispatch]. unfold Continuous.handleStart.
    rewrite continuous_moves_last. reflexivity.
  - cbn [Threshold.run Threshold.dispatch]. unfold Threshold.handleStart.
    rewrite threshold_moves_last. reflexivity.
Qed.

(** ** Arrow buttons *)

Lemma continuous_offsetImage_at (n c delta : Z) (b : bool) (s y : Q) :
  1 <= n -> 0 <= c < n -> - (c + n) <= delta ->
  Continuous.offsetImage n delta (Continuous.mkState c b s y)
  = Some (Continuous.mkState ((c + delta) mod n) b s y).
Proof.
  intros Hn Hc Hd. unfold Continuous.offsetImage, Continuous.offsetIndex.
  cbn [Continuous.currentIndex].
  destruct (rem_in_range (c + delta + n) n) as (m & E & _ & M); [lia | lia |].
  rewrite E, M. unfold Continuous.setCurrentIndex.
  cbn [Continuous.isDragging Continuous.startX Continuous.currentX].
  replace (c + delta + n) with (c + delta + 1 * n) by lia.
  rewrite Z.mod_add by lia. reflexivity.
Qed.

Lemma threshold_nextImage_at (n c : Z) (s y d : Q) :
  1 <= n -> 0 <= c < n ->
  Threshold.nextImage n (Threshold.mkState c false s y d)
  = Some (Threshold.mkState ((c + 1) mod n) false s y d).
Proof.
  intros Hn Hc. unfold Threshold.nextImage.
  cbn [Threshold.isDragging negb Threshold.currentIndex].
  destruct (rem_in_range (c + 1) n) as (m & E & _ & M); [lia | lia |].
  rewrite E, M. reflexivity.
Qed.

Lemma threshold_prevImage_at (n c : Z) (s y d : Q) :
  1 <= n -> 0 <= c < n ->
  Threshold.prevImage n (Threshold.mkState c false s y d)
  = Some (Threshold.mkState ((c - 1) mod n) false s y d).
Proof.
  intros Hn Hc. unfold Threshold.prevImage.
  cbn [Threshold.isDragging negb Threshold.currentIndex].
  destruct (rem_in_range (c - 1 + n) n) as (m & E & _ & M); [lia | lia |].
  rewrite E, M. unfold Threshold.setCurrentIndex.
  cbn [Threshold.isDragging Threshold.startX Threshold.currentX Threshold.dragOffset].
  replace (c - 1 + n) with (c - 1 + 1 * n) by lia.
  rewrite Z.mod_add by lia. reflexivity.
Qed.

Lemma mod_step_up (n c : Z) (k : nat) :
  1 <= n -> ((c + 1) mod n + Z.of_nat k) mod n = (c + Z.of_nat (S k)) mod n.
Proof.
  intros Hn. rewrite Zplus_mod_idemp_l. f_equal. lia.
Qed.

Lemma mod_step_down (n c : Z) (k : nat) :
  1 <= n -> ((c - 1) mod n - Z.of_nat k) mod n = (c - Z.of_nat (S k)) mod n.
Proof.
  intros Hn. rewrite Zminus_mod_idemp_l. f_equal. lia.
Qed.

(** X3: at rest, k clicks on the next arrow move the index from c to
    (c + k) mod n and k clicks on the previous arrow to (c - k) mod n;
    nothing else in the state changes. *)
Theorem continuous_arrow_clicks_add_modulo (n : Z) (k : nat) :
  1 <= n ->
  forall c s y, 0 <= c < n ->
    Continuous.run n (Continuous.mkState c false s y)
      (repeat Continuous.ClickNext k)
    = Some (Continuous.mkState ((c + Z.of_nat k) mod n) false s y)
    /\ Continuous.run n (Continuous.mkState c false s y)
         (repeat Continuous.ClickPrevious k)
       = Some (Continuous.mkState ((c - Z.of_nat k) mod n) false s y).
Proof.
  intros Hn. induction k as [| k IH]; intros c s y Hc.
  - cbn [repeat Continuous.run Z.of_nat].
    rewrite Z.add_0_r, Z.sub_0_r, Z.mod_small by lia. split; reflexivity.
  - cbn [repeat Continuous.run Continuous.dispatch]. unfold click.
    cbn [disabled onClick Continuous.previousButton Continuous.nextButton
         Continuous.isDragging].
    rewrite !continuous_offsetImage_at by lia.
    assert (U : 0 <= (c + 1) mod n < n) by (apply Z.mod_pos_bound; lia).
    assert (D : 0 <= (c + -1) mod n < n) by (apply Z.mod_pos_bound; lia).
    destruct (IH ((c + 1) mod n) s y U) as [N _].
    destruct (IH ((c + -1) mod n) s y D) as [_ P].
    rewrite N, P, mod_step_up by lia.
    change (c + -1) with (c - 1). rewrite mod_step_down by lia.
    split; reflexivity.
Qed.

Lemma continuous_arrow_clicks_add_modulo_witness :
  Continuous.run 10 (Continuous.mkState 3 false 0 0)
    (repeat Continuous.ClickNext 7)
  = Some (Continuous.mkState ((3 + Z.of_nat 7) mod 10) false 0 0).
Proof.
  apply (continuous_arrow_clicks_add_modulo 10 7 ltac:(lia) 3 0%Q 0%Q ltac:(lia)).
Defined.

(** X4: the same for the threshold revision: at rest, k clicks on the next
    arrow lead to (c + k) mod n and k clicks on the previous arrow to
    (c - k) mod n. *)
Theorem threshold_arrow_clicks_add_modulo (n : Z) (k : nat) :
  1 <= n ->
  forall c s y d, 0 <= c < n ->
    Threshold.run n (Threshold.mkState c false s y d)
      (repeat Threshold.ClickNext k)
    = Some (Threshold.mkState ((c + Z.of_nat k) mod n) false s y d)
    /\ Threshold.run n (Threshold.mkState c false s y d)
         (repeat Threshold.ClickPrevious k)
       = Some (Threshold.mkState ((c - Z.of_nat k) mod n) false s y d).
Proof.
  intros Hn. induction k as [| k IH]; intros c s y d Hc.
  - cbn [repeat Threshold.run Z.of_nat].
    rewrite Z.add_0_r, Z.sub_0_r, Z.mod_small by lia. split; reflexivity.
  - cbn [repeat Threshold.run Threshold.dispatch]. unfold click.
    cbn [disabled onClick Threshold.previousButton Threshold.nextButton
         Threshold.isDragging].
    rewrite threshold_nextImage_at, threshold_prevImage_at by lia.
    assert (U : 0 <= (c + 1) mod n < n) by (apply Z.mod_pos_bound; lia).
    assert (D : 0 <= (c - 1) mod n < n) by (apply Z.mod_pos_bound; lia).
    destruct (IH ((c + 1) mod n) s y d U) as [N _].
    destruct (IH ((c - 1) mod n) s y d D) as [_ P].
    rewrite N, P, mod_step_up, mod_step_down by lia.
    split; reflexivity.
Qed.

Lemma threshold_arrow_clicks_add_modulo_witness :
  Threshold.run 7 (Threshold.mkState 1 false 0 0 0)
    (repeat Threshold.ClickPrevious 3)
  = Some (Threshold.mkState ((1 - Z.of_nat 3) mod 7) false 0 0 0).
Proof.
  apply (threshold_arrow_clicks_add_modulo 7 3 ltac:(lia) 1 0%Q 0%Q 0%Q ltac:(lia)).
Defined.

(** X5: at rest the two arrows undo each other: next then previous, and
    previous then next, give back the state they started from, in both
    revisions. *)
Theorem arrows_are_mutually_inverse (n c : Z) :
  1 <= n -> 0 <= c < n ->
  (forall s y,
     Continuous.run n (Continuous.mkState c false s y)
       [Continuous.ClickNext; Continuous.ClickPrevious]
     = Some (Continuous.mkState c false s y)
     /\ Continuous.run n (Continuous.mkState c false s y)
          [Continuous.ClickPrevious; Continuous.ClickNext]
        = Some (Continuous.mkState c false s y))
  /\
  (forall s y d,
     Threshold.run n (Threshold.mkState c false s y d)
       [Threshold.ClickNext; Threshold.ClickPrevious]
     = Some (Threshold.mkState c false s y d)
     /\ Threshold.run n (Threshold.mkState c false s y d)
          [Threshold.ClickPrevious; Threshold.ClickNext]
        = Some (Threshold.mkState c false s y d)).
Proof.
  intros Hn Hc.
  assert (U : 0 <= (c + 1) mod n < n) by (apply Z.mod_pos_bound; lia).
  assert (D : 0 <= (c - 1) mod n < n) by (apply Z.mod_pos_bound; lia).
  assert (A : ((c + 1) mod n - 1) mod n = c).
  { rewrite Zminus_mod_idemp_l. replace (c + 1 - 1) with c by lia.
    apply Z.mod_small; lia. }
  assert (B : ((c - 1) mod n + 1) mod n = c).
  { rewrite Zplus_mod_idemp_l. replace (c - 1 + 1) with c by lia.
    apply Z.mod_small; lia. }
  split.
  - intros s y.
    cbn [Continuous.run Continuous.dispatch]. unfold click.
    cbn [disabled onClick Continuous.previousButton Continuous.nextButton
         Continuous.isDragging].
    rewrite !continuous_offsetImage_at by lia.
    cbn [Continuous.isDragging].
    change (c + -1) with (c - 1) in *.
    rewrite !continuous_offsetImage_at by lia.
    change ((c + 1) mod n + -1) with ((c + 1) mod n - 1).
    rewrite A, B. split; reflexivity.
  - intros s y d.
    cbn [Threshold.run Threshold.dispatch]. unfold click.
    cbn [disabled onClick Threshold.previousButton Threshold.nextButton
         Threshold.isDragging].
    split.
    + rewrite threshold_nextImage_at by lia. cbn [Threshold.isDragging].
      rewrite threshold_prevImage_at by lia. rewrite A. reflexivity.
    + rewrite threshold_prevImage_at by lia. cbn [Threshold.isDragging].
      rewrite threshold_nextImage_at by lia. rewrite B. reflexivity.
Qed.

Lemma arrows_are_mutually_inverse_witness :
  Continuous.run 7 (Continuous.mkState 6 false 0 0)
    [Continuous.ClickNext; Continuous.ClickPrevious]
  = Some (Continuous.mkState 6 false 0 0).
Proof.
  apply (proj1 (arrows_are_mutually_inverse 7 6 ltac:(lia) ltac:(lia))).
Defined.

(** ** Index range over whole event traces *)

Lemma continuous_step_in_viewport (n : Z) (width : Q)
    (st : Continuous.CarouselState) (e : Continuous.Event) :
  1 <= n -> (width < 200 * inject_Z n + 100)%Q ->
  0 <= Continuous.currentIndex st < n ->
  (Continuous.isDragging st = true ->
     (0 <= Continuous.startX st)%Q /\ (Continuous.currentX st <= width)%Q) ->
  Trace.continuousEvent n width e ->
  exists st',
    Continuous.dispatch n st e = Some st'
    /\ 0 <= Continuous.currentIndex st' < n
    /\ (Continuous.isDragging st' = true ->
          (0 <= Continuous.startX st')%Q /\ (Continuous.currentX st' <= width)%Q).
Proof.
  intros Hn Hw Hc Hd He.
  destruct st as [c b s y]. cbn [Continuous.currentIndex] in Hc.
  cbn [Continuous.isDragging Continuous.startX Continuous.currentX] in Hd.
  destruct e as [x | x | | | | i]; cbn [Trace.continuousEvent] in He;
    cbn [Continuous.dispatch].
  - eexists. split; [reflexivity |]. cbn. split; [lia |]. intros _. lra.
  - unfold Continuous.handleMove. cbn [Continuous.isDragging].
    destruct b; cbn [negb]; (eexists; split; [reflexivity |]); cbn;
      (split; [lia |]); intros D; [| discriminate].
    destruct (Hd eq_refl). lra.
  - destruct b.
    + destruct (Hd eq_refl) as [S0 Y].
      assert (R : JS.round ((y - s) / Continuous.SENSITIVITY) <= n).
      { apply round_le. unfold Continuous.SENSITIVITY, Qdiv.
        change (/ 200)%Q with (1 # 200)%Q. lra. }
      rewrite continuous_handleEnd_commit by lia.
      eexists. split; [reflexivity |]. cbn.
      split; [apply Z.mod_pos_bound; lia | discriminate].
    + eexists. split; [reflexivity |]. cbn. split; [lia | discriminate].
  - unfold click. cbn [disabled Continuous.previousButton Continuous.isDragging onClick].
    destruct b.
    + eexists. split; [reflexivity |]. cbn. split; [lia | exact Hd].
    + rewrite continuous_offsetImage_at by lia.
      eexists. split; [reflexivity |]. cbn.
      split; [apply Z.mod_pos_bound; lia | discriminate].
  - unfold click. cbn [disabled Continuous.nextButton Continuous.isDragging onClick].
    destruct b.
    + eexists. split; [reflexivity |]. cbn. split; [lia | exact Hd].
    + rewrite continuous_offsetImage_at by lia.
      eexists. split; [reflexivity |]. cbn.
      split; [apply Z.mod_pos_bound; lia | discriminate].
  - unfold Continuous.selectImage. cbn [Continuous.currentIndex Continuous.isDragging].
    destruct (negb (i =? c) && negb b) eqn:G.
    + apply andb_prop in G. destruct G as [_ G]. apply negb_true_iff in G. subst b.
      eexists. split; [reflexivity |]. cbn. split; [lia | discriminate].
    + eexists. split; [reflexivity |]. cbn. split; [lia | exact Hd].
Qed.

Lemma continuous_run_in_viewport
    (n : Z) (width : Q) (es : list Continuous.Event) :
  1 <= n -> (width < 200 * inject_Z n + 100)%Q ->
  Forall (Trace.continuousEvent n width) es ->
  forall st,
    0 <= Continuous.currentIndex st < n ->
    (Continuous.isDragging st = true ->
       (0 <= Continuous.startX st)%Q /\ (Continuous.currentX st <= width)%Q) ->
    exists st', Continuous.run n st es = Some st'
      /\ 0 <= Continuous.currentIndex st' < n.
Proof.
  intros Hn Hw Hes.
  induction Hes as [| e es He _ IH]; intros st Hc Hd.
  - exists st. split; [reflexivity | exact Hc].
  - destruct (continuous_step_in_viewport n width st e Hn Hw Hc Hd He)
      as (st1 & E & Hc1 & Hd1).
    cbn [Continuous.run]. rewrite E. apply IH; assumption.
Qed.

(** X6: as long as every pointer position lies in a viewport [0, width]
    narrower than 200 n + 100 pixels and every image click lands on one of
    the n images, no sequence of pointer events, arrow clicks and image
    clicks makes an index update fail or moves currentIndex out of [0, n),
    from the initial state or any other state at rest with a valid
    index. *)
Theorem continuous_index_in_range_inside_viewport
    (n : Z) (width : Q) (es : list Continuous.Event) :
  1 <= n -> (width < 200 * inject_Z n + 100)%Q ->
  Forall (Trace.continuousEvent n width) es ->
  forall st,
    0 <= Continuous.currentIndex st < n -> Continuous.isDragging st = false ->
    exists st',
      Continuous.run n st es = Some st'
      /\ 0 <= Continuous.currentIndex st' < n.
Proof.
  intros Hn Hw Hes st Hc Hr.
  apply (continuous_run_in_viewport n width es Hn Hw Hes st Hc).
  rewrite Hr. discriminate.
Qed.

Lemma continuous_index_in_range_inside_viewport_witness :
  exists st',
    Continuous.run 3 Continuous.initialState
      [Continuous.PointerDown 10; Continuous.PointerMove 650;
       Continuous.PointerUp; Continuous.ClickNext; Continuous.ClickImage 2]
    = Some st'
    /\ 0 <= Continuous.currentIndex st' < 3.
Proof.
  apply (continuous_index_in_range_inside_viewport 3 650).
  - lia.
  - vm_compute. reflexivity.
  - repeat constructor; cbn; try lia; vm_compute; discriminate.
  - cbn. lia.
  - reflexivity.
Defined.

Lemma threshold_step_in_range (n : Z)
    (st : Threshold.CarouselState) (e : Threshold.Event) :
  1 <= n -> 0 <= Threshold.currentIndex st < n ->
  Trace.thresholdEvent n e ->
  exists st',
    Threshold.dispatch n st e = Some st'
    /\ 0 <= Threshold.currentIndex st' < n.
Proof.
  intros Hn Hc He. destruct e as [x | x | | | | i];
    cbn [Trace.thresholdEvent] in He; cbn [Threshold.dispatch].
  - eexists. split; [reflexivity | exact Hc].
  - unfold Threshold.handleMove. destruct (negb (Threshold.isDragging st));
      eexists; (split; [reflexivity | exact Hc]).
  - destruct (threshold_handleEnd_keeps_index n st) as (st' & E & I).
    exists st'. split; [exact E | rewrite I; exact Hc].
  - destruct st as [c b s y d]. cbn [Threshold.currentIndex] in Hc.
    unfold click. cbn [disabled Threshold.previousButton Threshold.isDragging onClick].
    destruct b.
    + eexists. split; [reflexivity | exact Hc].
    + rewrite threshold_prevImage_at by lia.
      eexists. split; [reflexivity |]. cbn. apply Z.mod_pos_bound; lia.
  - destruct st as [c b s y d]. cbn [Threshold.currentIndex] in Hc.
    unfold click. cbn [disabled Threshold.nextButton Threshold.isDragging onClick].
    destruct b.
    + eexists. split; [reflexivity | exact Hc].
    + rewrite threshold_nextImage_at by lia.
      eexists. split; [reflexivity |]. cbn. apply Z.mod_pos_bound; lia.
  - unfold Threshold.selectImage.
    destruct (negb (i =? Threshold.currentIndex st) && negb (Threshold.isDragging st));
      eexists; (split; [reflexivity |]); cbn; lia.
Qed.

(** X7: in the threshold revision nothing a user does moves currentIndex
    out of [0, n): for n >= 1, every sequence of pointer events, arrow
    clicks and clicks on rendered images, from every state with a valid
    index, runs without a failing update and ends with a valid index. *)
Theorem threshold_index_always_in_range (n : Z) (es : list Threshold.Event) :
  1 <= n -> Forall (Trace.thresholdEvent n) es ->
  forall st,
    0 <= Threshold.currentIndex st < n ->
    exists st',
      Threshold.run n st es = Some st'
      /\ 0 <= Threshold.currentIndex st' < n.
Proof.
  intros Hn Hes. induction Hes as [| e es He _ IH]; intros st Hc.
  - exists st. split; [reflexivity | exact Hc].
  - destruct (threshold_step_in_range n st e Hn Hc He) as (st1 & E & Hc1).
    cbn [Threshold.run]. rewrite E. apply IH. exact Hc1.
Qed.

Lemma threshold_index_always_in_range_witness :
  exists st',
    Threshold.run 7 Threshold.initialState
      [Threshold.ClickPrevious; Threshold.PointerDown 0;
       Threshold.PointerMove 5000; Threshold.PointerUp; Threshold.ClickImage 4]
    = Some st'
    /\ 0 <= Threshold.currentIndex st' < 7.
Proof.
  apply (threshold_index_always_in_range 7).
  - lia.
  - repeat constructor; cbn; lia.
  - cbn. lia.
Defined.

(** X8: in the threshold revision pointer events alone never change
    currentIndex: whatever sequence of pointer-down, pointer-move and
    pointer-up events arrives, for every image count and every state, the
    run succeeds and the index is the one it started with. *)
Theorem threshold_pointer_events_keep_index (n : Z) (es : list Threshold.Event) :
  forallb Trace.thresholdPointerEvent es = true ->
  forall st,
    exists st',
      Threshold.run n st es = Some st'
      /\ Threshold.currentIndex st' = Threshold.currentIndex st.
Proof.
  induction es as [| e es IH]; intros Hes st.
  - exists st. split; reflexivity.
  - cbn [forallb] in Hes. apply andb_prop in Hes. destruct Hes as [He Hes].
    assert (S1 : exists st1, Threshold.dispatch n st e = Some st1
              /\ Threshold.currentIndex st1 = Threshold.currentIndex st).
    { destruct e as [x | x | | | | i]; try discriminate He;
        cbn [Threshold.dispatch].
      - eexists. split; reflexivity.
      - unfold Threshold.handleMove. destruct (negb (Threshold.isDragging st));
          eexists; split; reflexivity.
      - apply threshold_handleEnd_keeps_index. }
    destruct S1 as (st1 & E & I).
    destruct (IH Hes st1) as (st' & R & I').
    exists st'. cbn [Threshold.run]. rewrite E. split; [exact R | congruence].
Qed.

Lemma threshold_pointer_events_keep_index_witness :
  exists st',
    Threshold.run 7 (Threshold.mkState 3 false 0 0 0)
      [Threshold.PointerDown 900; Threshold.PointerMove 100; Threshold.PointerUp]
    = Some st'
    /\ Threshold.currentIndex st' = 3.
Proof.
  apply (threshold_pointer_events_keep_index 7
           [Threshold.PointerDown 900; Threshold.PointerMove 100; Threshold.PointerUp]
           eq_refl (Threshold.mkState 3 false 0 0 0)).
Defined.

(** ** Selecting an image *)

(** X9: a press and release without movement followed by the click on
    image i selects image i: from every state with a valid index the
    carousel ends at rest on index i with cleared positions, in both
    revisions. *)
Theorem press_release_click_selects_image (n c i : Z) (x : Q) :
  1 <= n -> 0 <= c < n ->
  (forall st, Continuous.currentIndex st = c ->
     Continuous.run n st
       [Continuous.PointerDown x; Continuous.PointerUp; Continuous.ClickImage i]
     = Some (Continuous.mkState i false 0 0))
  /\
  (forall st, Threshold.currentIndex st = c ->
     Threshold.run n st
       [Threshold.PointerDown x; Threshold.PointerUp; Threshold.ClickImage i]
     = Some (Threshold.mkState i false 0 0 0)).
Proof.
  intros Hn Hc. split; intros st Hst.
  - cbn [Continuous.run Continuous.dispatch]. unfold Continuous.handleStart.
    rewrite Hst, continuous_handleEnd_zero by (try reflexivity; assumption).
    unfold Continuous.selectImage, Continuous.setCurrentIndex.
    cbn [Continuous.currentIndex Continuous.isDragging Continuous.startX
         Continuous.currentX negb].
    rewrite andb_true_r.
    destruct (Z.eqb_spec i c) as [-> | _]; reflexivity.
  - cbn [Threshold.run Threshold.dispatch]. unfold Threshold.handleStart.
    unfold Threshold.handleEnd.
    cbn [Threshold.isDragging negb Threshold.currentX Threshold.startX].
    assert (G : JS.gt (Qabs (x - x)) Threshold.threshold = false).
    { unfold JS.gt. apply negb_false_iff, Qle_bool_iff.
      assert (Z0 : (x - x == 0)%Q) by ring. rewrite Z0. discriminate. }
    rewrite G. cbn [Threshold.currentIndex].
    unfold Threshold.selectImage, Threshold.setCurrentIndex.
    cbn [Threshold.currentIndex Threshold.isDragging Threshold.startX
         Threshold.currentX Threshold.dragOffset negb].
    rewrite andb_true_r, Hst.
    destruct (Z.eqb_spec i c) as [-> | _]; reflexivity.
Qed.

Lemma press_release_click_selects_image_witness :
  Continuous.run 7 (Continuous.mkState 2 false 0 0)
    [Continuous.PointerDown 340; Continuous.PointerUp; Continuous.ClickImage 5]
  = Some (Continuous.mkState 5 false 0 0).
Proof.
  apply (proj1 (press_release_click_selects_image 7 2 5 340 ltac:(lia) ltac:(lia))).
  reflexivity.
Defined.

(** * Further properties of the layout engine *)

(** ** Opacity and scale of the threshold revision *)

Lemma threshold_opacityAt_spec (u : Q) :
  (0 <= u)%Q ->
  (0 <= Threshold.opacityAt u)%Q /\ (Threshold.opacityAt u <= 1)%Q
  /\ ((u <= 1)%Q -> (Threshold.opacityAt u == 1)%Q)
  /\ ((u <= 3)%Q -> ((2 # 5) <= Threshold.opacityAt u)%Q)
  /\ ((3 < u)%Q -> (Threshold.opacityAt u == 0)%Q).
Proof.
  intros U. unfold Threshold.opacityAt, JS.gt.
  destruct (Q.max_spec 0 (u - 1)) as [[L E] | [L E]];
    q_cases; cbn [negb]; rewrite ?E; repeat split; intros; lra.
Qed.

(** X10: in the threshold revision the opacity of every image is a number
    in [0, 1]: exactly 1 up to distance 1 from the center, at least 2/5 up
    to distance 3, and 0 beyond distance 3. *)
Theorem threshold_opacity_in_unit_interval
    (n : Z) (st : Threshold.CarouselState) (index : Z) (f : Q) :
  Threshold.finalOffset n st index = Some f ->
  exists s,
    Threshold.getImageStyle n st index = Some s
    /\ (0 <= Threshold.opacity s)%Q /\ (Threshold.opacity s <= 1)%Q
    /\ ((Qabs f <= 1)%Q -> (Threshold.opacity s == 1)%Q)
    /\ ((Qabs f <= 3)%Q -> ((2 # 5) <= Threshold.opacity s)%Q)
    /\ ((3 < Qabs f)%Q -> (Threshold.opacity s == 0)%Q).
Proof.
  intros E. unfold Threshold.getImageStyle. rewrite E.
  eexists. split; [reflexivity |]. cbn [Threshold.opacity].
  apply threshold_opacityAt_spec, Qabs_nonneg.
Qed.

Lemma threshold_opacity_in_unit_interval_witness :
  exists f s,
    Threshold.finalOffset 7 (Threshold.mkState 0 true 0 100 50) 2 = Some f
    /\ Threshold.getImageStyle 7 (Threshold.mkState 0 true 0 100 50) 2 = Some s
    /\ (0 <= Threshold.opacity s)%Q /\ (Threshold.opacity s <= 1)%Q.
Proof.
  eexists.
  destruct (threshold_opacity_in_unit_interval 7
              (Threshold.mkState 0 true 0 100 50) 2 _ eq_refl)
    as (s & G & L & U & _).
  exists s. split; [reflexivity |]. split; [exact G |]. split; assumption.
Defined.

(** ** Stacking order *)

Lemma zIndex_of_distance (u v : Q) :
  (0 <= u)%Q -> (u <= v)%Q ->
  Z.max 0 (100 - Qfloor (v * 10)) <= Z.max 0 (100 - Qfloor (u * 10))
  /\ 0 <= Z.max 0 (100 - Qfloor (v * 10))
  /\ Z.max 0 (100 - Qfloor (u * 10)) <= 100
  /\ ((u == 0)%Q -> Z.max 0 (100 - Qfloor (u * 10)) = 100).
Proof.
  intros U V.
  assert (F : Qfloor (u * 10) <= Qfloor (v * 10)) by (apply Qfloor_resp_le; lra).
  assert (P : 0 <= Qfloor (u * 10)).
  { change 0 with (Qfloor 0). apply Qfloor_resp_le. lra. }
  repeat split; try lia.
  intros Z0. assert (E : (u * 10 == 0)%Q) by (rewrite Z0; ring).
  rewrite (Qfloor_comp _ _ E). reflexivity.
Qed.

(** X14: the stacking order never increases with the distance from the
    center: of two images of one render the one with the smaller |signed
    offset| has the larger or equal zIndex; every zIndex lies in [0, 100]
    and the image at offset 0 gets 100. *)
Theorem stacking_order_decreases_with_distance
    (n : Z) (st : Continuous.CarouselState) (i j : Z) (a b : Q) :
  Continuous.adjustedOffset n st i = Some a ->
  Continuous.adjustedOffset n st j = Some b ->
  (Qabs a <= Qabs b)%Q ->
  exists sa sb,
    Continuous.getImageStyle n st i = Some sa
    /\ Continuous.getImageStyle n st j = Some sb
    /\ Continuous.zIndex sb <= Continuous.zIndex sa
    /\ 0 <= Continuous.zIndex sb
    /\ Continuous.zIndex sa <= 100
    /\ ((a == 0)%Q -> Continuous.zIndex sa = 100).
Proof.
  intros A B H. unfold Continuous.getImageStyle. rewrite A, B.
  eexists. eexists. split; [reflexivity |]. split; [reflexivity |].
  cbn [Continuous.zIndex].
  destruct (zIndex_of_distance (Qabs a) (Qabs b) (Qabs_nonneg a) H)
    as (M & L & U & C).
  split; [exact M |]. split; [exact L |]. split; [exact U |].
  intros Z0. apply C, Qabs_zero_iff, Z0.
Qed.

Lemma stacking_order_decreases_with_distance_witness :
  exists a b sa sb,
    Continuous.adjustedOffset 10 Continuous.initialState 1 = Some a
    /\ Continuous.adjustedOffset 10 Continuous.initialState 7 = Some b
    /\ Continuous.getImageStyle 10 Continuous.initialState 1 = Some sa
    /\ Continuous.getImageStyle 10 Continuous.initialState 7 = Some sb
    /\ Continuous.zIndex sb <= Continuous.zIndex sa.
Proof.
  eexists. eexists.
  destruct (stacking_order_decreases_with_distance 10 Continuous.initialState
              1 7 _ _ eq_refl eq_refl) as (sa & sb & A & B & M & _).
  - vm_compute. discriminate.
  - exists sa, sb. repeat split; assumption.
Defined.

(** ** Signed offset during a drag *)

Lemma fmod_nonneg (q : Q) (n : Z) :
  (0 <= q)%Q -> 0 < n ->
  exists off, JS.fmod q (inject_Z n) = Some off
    /\ (0 <= off)%Q /\ (off < inject_Z n)%Q.
Proof.
  intros Hq Hn. unfold JS.fmod.
  assert (N0 : (0 < inject_Z n)%Q)
    by (change 0%Q with (inject_Z 0); rewrite <- Zlt_Qlt; lia).
  destruct (Qeq_bool (inject_Z n) 0) eqn:B; [apply Qeq_bool_iff in B; lra |].
  eexists. split; [reflexivity |].
  set (N := inject_Z n) in *. clearbody N.
  assert (T0 : (0 < / N)%Q) by (apply Qinv_lt_0_compat; exact N0).
  assert (D0 : (0 <= q / N)%Q) by (apply Qmult_le_0_compat; lra).
  unfold JS.trunc. apply Qle_bool_iff in D0. rewrite D0.
  pose proof (Qfloor_le (q / N)) as L.
  pose proof (Qlt_floor (q / N)) as U.
  rewrite inject_Z_plus in U. change (inject_Z 1) with 1%Q in U.
  set (f := inject_Z (Qfloor (q / N))) in *. clearbody f.
  assert (E : (N * (q / N) == q)%Q) by (field; lra).
  set (d := (q / N)%Q) in *. clearbody d.
  assert (P1 : (0 <= N * (d - f))%Q) by (apply Qmult_le_0_compat; lra).
  assert (P2 : (0 < N * (f + 1 - d))%Q) by (apply Qmult_lt_0_compat; lra).
  split; lra.
Qed.

Lemma fmod_negative (q : Q) (n : Z) :
  (q < 0)%Q -> 0 < n ->
  exists off, JS.fmod q (inject_Z n) = Some off
    /\ (- inject_Z n < off)%Q /\ (off <= 0)%Q.
Proof.
  intros Hq Hn. unfold JS.fmod.
  assert (N0 : (0 < inject_Z n)%Q)
    by (change 0%Q with (inject_Z 0); rewrite <- Zlt_Qlt; lia).
  destruct (Qeq_bool (inject_Z n) 0) eqn:B; [apply Qeq_bool_iff in B; lra |].
  eexists. split; [reflexivity |].
  set (N := inject_Z n) in *. clearbody N.
  assert (T0 : (0 < / N)%Q) by (apply Qinv_lt_0_compat; exact N0).
  assert (D0 : (q / N < 0)%Q).
  { assert (0 < (- q) * / N)%Q by (apply Qmult_lt_0_compat; lra).
    unfold Qdiv. lra. }
  unfold JS.trunc.
  destruct (Qle_bool 0 (q / N)) eqn:G; [apply Qle_bool_iff in G; lra |].
  pose proof (Qle_ceiling (q / N)) as L.
  pose proof (Qceiling_lt (q / N)) as U.
  unfold Z.sub in U. rewrite inject_Z_plus in U.
  change (inject_Z (- (1))) with (- (1))%Q in U.
  set (g := inject_Z (Qceiling (q / N))) in *. clearbody g.
  assert (E : (N * (q / N) == q)%Q) by (field; lra).
  set (d := (q / N)%Q) in *. clearbody d.
  assert (P1 : (0 <= N * (g - d))%Q) by (apply Qmult_le_0_compat; lra).
  assert (P2 : (0 < N * (d - (g + - (1))))%Q) by (apply Qmult_lt_0_compat; lra).
  split; lra.
Qed.

(** X15: for n >= 1 the signed offset of every image in every state,
    dragging or not, lies in (-n, n/2]; it lies in (-n/2, n/2] whenever
    the sum (index - currentIndex) + dragOffset + n the remainder is taken
    of is not negative. *)
Theorem signed_offset_range_during_drag
    (n : Z) (st : Continuous.CarouselState) (index : Z) :
  1 <= n ->
  exists a,
    Continuous.adjustedOffset n st index = Some a
    /\ (- inject_Z n < a)%Q /\ (a <= inject_Z n / 2)%Q
    /\ ((0 <= inject_Z (index - Continuous.currentIndex st)
              + Continuous.dragOffset st + inject_Z n)%Q ->
        (- (inject_Z n / 2) < a)%Q).
Proof.
  intros Hn. unfold Continuous.adjustedOffset. cbv zeta.
  set (q := (inject_Z (index - Continuous.currentIndex st)
             + Continuous.dragOffset st + inject_Z n)%Q).
  assert (N1 : (1 <= inject_Z n)%Q)
    by (change 1%Q with (inject_Z 1); rewrite <- Zle_Qle; lia).
  destruct (Qlt_le_dec q 0) as [Neg | Pos].
  - destruct (fmod_negative q n Neg) as (off & F & L & U); [lia |].
    rewrite F. eexists. split; [reflexivity |].
    unfold JS.gt. q_cases; cbn [negb];
      unfold Qdiv in *; change (/ 2)%Q with (1 # 2)%Q in *;
      repeat split; intros; lra.
  - destruct (fmod_nonneg q n Pos) as (off & F & L & U); [lia |].
    rewrite F. eexists. split; [reflexivity |].
    unfold JS.gt. q_cases; cbn [negb];
      unfold Qdiv in *; change (/ 2)%Q with (1 # 2)%Q in *;
      repeat split; intros; lra.
Qed.

Lemma signed_offset_range_during_drag_witness :
  exists a,
    Continuous.adjustedOffset 7 (Continuous.mkState 2 true 400 130) 5 = Some a
    /\ (- inject_Z 7 < a)%Q /\ (a <= inject_Z 7 / 2)%Q.
Proof.
  destruct (signed_offset_range_during_drag 7
              (Continuous.mkState 2 true 400 130) 5 ltac:(lia))
    as (a & A & L & U & _).
  exists a. repeat split; assumption.
Defined.

(** ** Layout before and after a commit *)

Lemma round_of_integer (q : Q) (k : Z) : (q == inject_Z k)%Q -> JS.round q = k.
Proof.
  intros E. unfold JS.round. apply Qfloor_unique; rewrite E.
  - lra.
  - rewrite inject_Z_plus. change (inject_Z 1) with 1%Q. lra.
Qed.

(** The signed offset when the sum under the remainder is the integer k. *)
Lemma adjustedOffset_of_integer (n k : Z) (st : Continuous.CarouselState) (index : Z) :
  1 <= n -> 0 <= k ->
  (inject_Z (index - Continuous.currentIndex st)
   + Continuous.dragOffset st + inject_Z n == inject_Z k)%Q ->
  exists a,
    Continuous.adjustedOffset n st index = Some a
    /\ (a == inject_Z (if n <? 2 * (k mod n) then k mod n - n else k mod n))%Q.
Proof.
  intros Hn Hk E. unfold Continuous.adjustedOffset. cbv zeta.
  destruct (fmod_of_integers _ k n Hk ltac:(lia) E) as (off & F & O).
  rewrite F. eexists. split; [reflexivity |].
  set (r := k mod n) in *.
  assert (R2 : (inject_Z (2 * r) == 2 * inject_Z r)%Q)
    by (rewrite inject_Z_mult; reflexivity).
  unfold JS.gt. destruct (Z.ltb_spec n (2 * r)) as [G | G].
  - assert (GQ : (inject_Z n < inject_Z (2 * r))%Q) by (rewrite <- Zlt_Qlt; exact G).
    unfold Z.sub. rewrite inject_Z_plus, inject_Z_opp.
    q_cases; cbn [negb];
      unfold Qdiv in *; change (/ 2)%Q with (1 # 2)%Q in *; lra.
  - assert (GQ : (inject_Z (2 * r) <= inject_Z n)%Q) by (rewrite <- Zle_Qle; exact G).
    q_cases; cbn [negb];
      unfold Qdiv in *; change (/ 2)%Q with (1 # 2)%Q in *; lra.
Qed.

(** X16: releasing a drag of exactly k steps (k times 200 pixels) causes
    no jump: every image has the same signed offset just before the
    release and in the state at rest the release commits to, provided
    neither sum under a remainder is negative
    (0 <= i - c + k + n and k <= c + n). *)
Theorem whole_step_drag_commits_without_jump (n c i k : Z) (s : Q) :
  1 <= n -> 0 <= c < n -> 0 <= i < n ->
  0 <= i - c + k + n -> k <= c + n ->
  exists st' a b,
    Continuous.handleEnd n
      (Continuous.mkState c true s (s + 200 * inject_Z k)) = Some st'
    /\ Continuous.isDragging st' = false
    /\ Continuous.adjustedOffset n
         (Continuous.mkState c true s (s + 200 * inject_Z k)) i = Some a
    /\ Continuous.adjustedOffset n st' i = Some b
    /\ (a == b)%Q.
Proof.
  intros Hn Hc Hi Hlo Hhi.
  assert (D : ((s + 200 * inject_Z k - s) / Continuous.SENSITIVITY == inject_Z k)%Q)
    by (unfold Continuous.SENSITIVITY; field).
  pose proof (round_of_integer _ _ D) as R.
  rewrite continuous_handleEnd_commit by (rewrite ?R; lia).
  rewrite R. set (c' := (c - k) mod n).
  assert (C' : 0 <= c' < n) by (apply Z.mod_pos_bound; lia).
  destruct (adjustedOffset_of_integer n (i - c + k + n)
              (Continuous.mkState c true s (s + 200 * inject_Z k)) i Hn Hlo)
    as (a & A & EA).
  { unfold Continuous.dragOffset.
    cbn [Continuous.currentIndex Continuous.currentX Continuous.startX].
    rewrite D. rewrite !inject_Z_plus. reflexivity. }
  destruct (adjustedOffset_of_integer n (i - c' + n)
              (Continuous.mkState c' false 0 0) i Hn ltac:(lia))
    as (b & B & EB).
  { unfold Continuous.dragOffset, Continuous.SENSITIVITY.
    cbn [Continuous.currentIndex Continuous.currentX Continuous.startX].
    rewrite !inject_Z_plus. field. }
  assert (M : (i - c' + n) mod n = (i - c + k + n) mod n).
  { unfold c'. replace (i - (c - k) mod n + n) with (i + n - (c - k) mod n) by lia.
    rewrite Zminus_mod_idemp_r. f_equal. lia. }
  exists (Continuous.mkState c' false 0 0), a, b.
  split; [reflexivity |]. split; [reflexivity |].
  split; [exact A |]. split; [exact B |].
  rewrite EA, EB, M. reflexivity.
Qed.

Lemma whole_step_drag_commits_without_jump_witness :
  exists st' a b,
    Continuous.handleEnd 7
      (Continuous.mkState 1 true 50 (50 + 200 * inject_Z 3)) = Some st'
    /\ Continuous.isDragging st' = false
    /\ Continuous.adjustedOffset 7
         (Continuous.mkState 1 true 50 (50 + 200 * inject_Z 3)) 4 = Some a
    /\ Continuous.adjustedOffset 7 st' 4 = Some b
    /\ (a == b)%Q.
Proof.
  apply (whole_step_drag_commits_without_jump 7 1 4 3 50); lia.
Defined.

(** ** Which images are visible *)

Lemma opacityAt_visibility (n : Z) (u : Q) :
  1 <= Continuous.maxOffset n -> (0 <= u)%Q ->
  exists o,
    Continuous.opacityAt n u = Some o
    /\ ((0 < o)%Q <-> (u < inject_Z (Continuous.maxOffset n) + 1)%Q)
    /\ ((1 <= o)%Q <-> (u <= 1)%Q).
Proof.
  intros Hm Hu. unfold Continuous.opacityAt, JS.div.
  set (M := inject_Z (Continuous.maxOffset n)).
  assert (M1 : (1 <= M)%Q)
    by (unfold M; change 1%Q with (inject_Z 1); rewrite <- Zle_Qle; lia).
  clearbody M.
  destruct (Qeq_bool M 0) eqn:B; [apply Qeq_bool_iff in B; lra |].
  eexists. split; [reflexivity |].
  unfold Qdiv. set (t := (/ M)%Q).
  assert (T0 : (0 < t)%Q) by (apply Qinv_lt_0_compat; lra).
  assert (MT : (M * t == 1)%Q) by (apply Qmult_inv_r; lra).
  clearbody t.
  destruct (Q.max_spec 0 (1 - (u - 1) * t)) as [[L E] | [L E]]; rewrite E.
  - split; split; intros H.
    + destruct (Qlt_le_dec u (M + 1)) as [Lt | Ge]; [exact Lt |].
      assert (P : (0 <= (u - 1 - M) * t)%Q) by (apply Qmult_le_0_compat; lra).
      lra.
    + exact L.
    + destruct (Qlt_le_dec 1 u) as [Gt | Le]; [| exact Le].
      assert (P : (0 < (u - 1) * t)%Q) by (apply Qmult_lt_0_compat; lra).
      lra.
    + assert (P : (0 <= (1 - u) * t)%Q) by (apply Qmult_le_0_compat; lra).
      lra.
  - split; split; intros H; try lra.
    + assert (P : (0 < (M + 1 - u) * t)%Q) by (apply Qmult_lt_0_compat; lra).
      lra.
    + assert (P : (0 <= (1 - u) * t)%Q) by (apply Qmult_le_0_compat; lra).
      lra.
Qed.

(** X17: with n >= 6 images an image is visible (opacity above 0) exactly
    when its |signed offset| is below maxOffset + 1 = floor(n/2) - 1, and
    its opacity is 1 or more exactly when its |signed offset| is at
    most 1. *)
Theorem image_visible_iff_within_fade_distance
    (n : Z) (st : Continuous.CarouselState) (index : Z) :
  6 <= n ->
  exists a s o,
    Continuous.adjustedOffset n st index = Some a
    /\ Continuous.getImageStyle n st index = Some s
    /\ Continuous.opacity s = Some o
    /\ ((0 < o)%Q <-> (Qabs a < inject_Z (n / 2 - 2) + 1)%Q)
    /\ ((1 <= o)%Q <-> (Qabs a <= 1)%Q).
Proof.
  intros Hn.
  destruct (getImageStyle_defined n st index) as (a & A & G); [lia |].
  assert (Hm : 1 <= Continuous.maxOffset n).
  { unfold Continuous.maxOffset.
    assert (3 <= n / 2) by (apply Z.div_le_lower_bound; lia). lia. }
  destruct (opacityAt_visibility n (Qabs a) Hm (Qabs_nonneg a)) as (o & O & V & W).
  exists a. eexists. exists o.
  split; [exact A |]. split; [exact G |]. cbn [Continuous.opacity].
  split; [exact O |]. split; [exact V | exact W].
Qed.

Lemma image_visible_iff_within_fade_distance_witness :
  exists a s o,
    Continuous.adjustedOffset 10 Continuous.initialState 4 = Some a
    /\ Continuous.getImageStyle 10 Continuous.initialState 4 = Some s
    /\ Continuous.opacity s = Some o
    /\ ((0 < o)%Q <-> (Qabs a < inject_Z (10 / 2 - 2) + 1)%Q)
    /\ ((1 <= o)%Q <-> (Qabs a <= 1)%Q).
Proof.
  apply (image_visible_iff_within_fade_distance 10 Continuous.initialState 4). lia.
Defined.

(** ** The threshold revision at rest *)

Lemma threshold_finalOffset_at_rest (n i c : Z) (st : Threshold.CarouselState) :
  1 <= n -> 0 <= i < n -> 0 <= c < n ->
  Threshold.currentIndex st = c -> (Threshold.dragOffset st == 0)%Q ->
  exists f z,
    Threshold.finalOffset n st i = Some f
    /\ (f == inject_Z z)%Q
    /\ - n < 2 * z <= n
    /\ (z - (i - c)) mod n = 0
    /\ (i = c -> z = 0).
Proof.
  intros Hn Hi Hc Hst Hd. subst c. unfold Threshold.finalOffset.
  set (k := i - Threshold.currentIndex st + n).
  destruct (rem_in_range k n) as (r & E & R & M); [lia | lia |].
  rewrite E.
  assert (G : JS.gt (inject_Z r) (inject_Z n / 2) = (n <? 2 * r)).
  { unfold JS.gt.
    assert (R2 : (inject_Z (2 * r) == 2 * inject_Z r)%Q)
      by (rewrite inject_Z_mult; reflexivity).
    destruct (Z.ltb_spec n (2 * r)) as [L | L].
    - assert (LQ : (inject_Z n < inject_Z (2 * r))%Q) by (rewrite <- Zlt_Qlt; exact L).
      q_cases; cbn [negb]; [| reflexivity].
      unfold Qdiv in *; change (/ 2)%Q with (1 # 2)%Q in *. lra.
    - assert (LQ : (inject_Z (2 * r) <= inject_Z n)%Q) by (rewrite <- Zle_Qle; exact L).
      q_cases; cbn [negb]; [reflexivity |].
      unfold Qdiv in *; change (/ 2)%Q with (1 # 2)%Q in *. lra. }
  rewrite G.
  eexists. exists (if n <? 2 * r then r - n else r).
  split; [reflexivity |].
  split; [rewrite Hd; unfold Qdiv; ring |].
  assert (K : (r - (i - Threshold.currentIndex st)) mod n = 0).
  { rewrite M. rewrite Zminus_mod_idemp_l. unfold k.
    replace (i - Threshold.currentIndex st + n - (i - Threshold.currentIndex st))
      with (1 * n) by lia.
    apply Z.mod_mul. lia. }
  assert (K' : (r - n - (i - Threshold.currentIndex st)) mod n = 0).
  { replace (r - n - (i - Threshold.currentIndex st))
      with (r - (i - Threshold.currentIndex st) + (-1) * n) by lia.
    rewrite Z.mod_add by lia. exact K. }
  assert (C0 : i = Threshold.currentIndex st -> r = 0).
  { intros I. rewrite M. unfold k. rewrite I.
    replace (Threshold.currentIndex st - Threshold.currentIndex st + n)
      with (1 * n) by lia.
    apply Z.mod_mul. lia. }
  destruct (Z.ltb_spec n (2 * r)) as [L | L].
  - split; [lia |]. split; [exact K' |]. intros I. specialize (C0 I). lia.
  - split; [lia |]. split; [exact K |]. exact C0.
Qed.

(** X18: at rest, with i and c in [0, n), the final offset of image i in
    the threshold revision is an integer z in (-n/2, n/2] congruent to
    i - c modulo n, and it is 0 for the centered image. *)
Theorem threshold_offset_at_rest_is_nearest_path
    (n i c : Z) (st : Threshold.CarouselState) :
  1 <= n -> 0 <= i < n -> 0 <= c < n ->
  Threshold.currentIndex st = c -> (Threshold.dragOffset st == 0)%Q ->
  exists f z,
    Threshold.finalOffset n st i = Some f
    /\ (f == inject_Z z)%Q
    /\ - n < 2 * z <= n
    /\ (z - (i - c)) mod n = 0
    /\ (i = c -> z = 0).
Proof.
  exact (threshold_finalOffset_at_rest n i c st).
Qed.

Lemma threshold_offset_at_rest_is_nearest_path_witness :
  exists f z,
    Threshold.finalOffset 7 (Threshold.mkState 1 false 0 0 0) 5 = Some f
    /\ (f == inject_Z z)%Q
    /\ - 7 < 2 * z <= 7
    /\ (z - (5 - 1)) mod 7 = 0
    /\ (5 = 1 -> z = 0).
Proof.
  apply (threshold_offset_at_rest_is_nearest_path 7 5 1
           (Threshold.mkState 1 false 0 0 0));
    [lia | lia | lia | reflexivity | reflexivity].
Defined.

(** X19: with at most seven images (the default placeholder list has
    seven) every image of the threshold revision is visible at rest: its
    opacity is at least 2/5. *)
Theorem threshold_all_images_visible_up_to_seven
    (n i c : Z) (st : Threshold.CarouselState) :
  1 <= n <= 7 -> 0 <= i < n -> 0 <= c < n ->
  Threshold.currentIndex st = c -> (Threshold.dragOffset st == 0)%Q ->
  exists s,
    Threshold.getImageStyle n st i = Some s
    /\ ((2 # 5) <= Threshold.opacity s)%Q
    /\ (Threshold.opacity s <= 1)%Q.
Proof.
  intros Hn Hi Hc Hst Hd.
  destruct (threshold_finalOffset_at_rest n i c st ltac:(lia) Hi Hc Hst Hd)
    as (f & z & F & E & R & _).
  unfold Threshold.getImageStyle. rewrite F.
  eexists. split; [reflexivity |]. cbn [Threshold.opacity].
  destruct (threshold_opacityAt_spec (Qabs f) (Qabs_nonneg f))
    as (_ & U & _ & V & _).
  split; [| exact U]. apply V. rewrite E.
  assert (Z3 : -3 <= z <= 3) by lia.
  apply Qabs_Qle_condition. split.
  - change (- (3))%Q with (inject_Z (-3)). rewrite <- Zle_Qle. lia.
  - change 3%Q with (inject_Z 3). rewrite <- Zle_Qle. lia.
Qed.

Lemma threshold_all_images_visible_up_to_seven_witness :
  List.length (Threshold.imageList None) = 7%nat
  /\ exists s,
       Threshold.getImageStyle 7 (Threshold.mkState 0 false 0 0 0) 4 = Some s
       /\ ((2 # 5) <= Threshold.opacity s)%Q
       /\ (Threshold.opacity s <= 1)%Q.
Proof.
  split; [reflexivity |].
  apply (threshold_all_images_visible_up_to_seven 7 4 0
           (Threshold.mkState 0 false 0 0 0));
    [lia | lia | lia | reflexivity | reflexivity].
Defined.

(** ** The revision with a fixed fade distance *)

Lemma fixedFade_opacityAt_spec (u : Q) :
  (0 <= u)%Q ->
  (0 <= FixedFade.opacityAt u)%Q
  /\ (FixedFade.opacityAt u <= 3 # 2)%Q
  /\ ((u == 0)%Q -> (FixedFade.opacityAt u == 3 # 2)%Q)
  /\ ((0 < FixedFade.opacityAt u)%Q <-> (u < 3)%Q)
  /\ ((1 <= FixedFade.opacityAt u)%Q <-> (u <= 1)%Q).
Proof.
  intros U. unfold FixedFade.opacityAt, FixedFade.MAX_OFFSET, Qdiv.
  change (/ 2)%Q with (1 # 2)%Q.
  destruct (Q.max_spec 0 (1 - (u - 1) * (1 # 2))) as [[L E] | [L E]];
    rewrite E; repeat split; intros; lra.
Qed.

(** X20: with the fixed fade distance MAX_OFFSET = 2 the opacity of every
    image is a number in [0, 3/2], it is 3/2 at the center, it is 1 or
    more exactly up to distance 1, and the image is visible (opacity above
    0) exactly when its |signed offset| is below 3, whatever the number of
    images. *)
Theorem fixed_fade_opacity
    (n : Z) (st : Continuous.CarouselState) (index : Z) (a : Q) :
  Continuous.adjustedOffset n st index = Some a ->
  exists s,
    FixedFade.getImageStyle n st index = Some s
    /\ (0 <= FixedFade.opacity s)%Q
    /\ (FixedFade.opacity s <= 3 # 2)%Q
    /\ ((a == 0)%Q -> (FixedFade.opacity s == 3 # 2)%Q)
    /\ ((0 < FixedFade.opacity s)%Q <-> (Qabs a < 3)%Q)
    /\ ((1 <= FixedFade.opacity s)%Q <-> (Qabs a <= 1)%Q).
Proof.
  intros A. unfold FixedFade.getImageStyle. rewrite A.
  eexists. split; [reflexivity |]. cbn [FixedFade.opacity].
  destruct (fixedFade_opacityAt_spec (Qabs a) (Qabs_nonneg a))
    as (L & U & C & V & W).
  split; [exact L |]. split; [exact U |]. split; [| split; assumption].
  intros Z0. apply C, Qabs_zero_iff, Z0.
Qed.

Lemma fixed_fade_opacity_witness :
  exists a s,
    Continuous.adjustedOffset 3 (Continuous.mkState 0 true 0 40) 1 = Some a
    /\ FixedFade.getImageStyle 3 (Continuous.mkState 0 true 0 40) 1 = Some s
    /\ (0 <= FixedFade.opacity s)%Q
    /\ (FixedFade.opacity s <= 3 # 2)%Q.
Proof.
  eexists.
  destruct (fixed_fade_opacity 3 (Continuous.mkState 0 true 0 40) 1 _ eq_refl)
    as (s & G & L & U & _).
  exists s. split; [reflexivity |]. split; [exact G |]. split; assumption.
Defined.

(** ** The page *)

Lemma home_caption_at (c : Z) :
  0 <= c < 10 ->
  exists image,
    JS.get Home.images c = Some image
    /\ Continuous.caption image
       = ("Image number " ++ Home.numberToString (c + 1))%string.
Proof.
  intros H.
  assert (C : c = 0 \/ c = 1 \/ c = 2 \/ c = 3 \/ c = 4
              \/ c = 5 \/ c = 6 \/ c = 7 \/ c = 8 \/ c = 9) by lia.
  repeat (destruct C as [-> | C]; [eexists; split; reflexivity |]).
  subst c. eexists. split; reflexivity.
Qed.

(** X21: the page renders the carousel with ten images: for every state
    whose currentIndex c is in [0, 10) the render succeeds, shows ten
    image styles, all defined, and the caption Image number c+1. *)
Theorem home_renders_ten_captioned_images (st : Continuous.CarouselState) :
  0 <= Continuous.currentIndex st < 10 ->
  exists v,
    Home.render st = Some v
    /\ Continuous.captionText v
       = ("Image number "
          ++ Home.numberToString (Continuous.currentIndex st + 1))%string
    /\ List.length (Continuous.items v) = 10%nat
    /\ (forall s, In s (Continuous.items v) -> s <> None)
    /\ Home.totalImages = 10.
Proof.
  intros Hc. destruct (home_caption_at _ Hc) as (image & G & C).
  unfold Home.render, Continuous.render. rewrite G.
  eexists. split; [reflexivity |].
  cbn [Continuous.captionText Continuous.items].
  split; [exact C |]. split; [| split; [| reflexivity]].
  - unfold JS.indices. rewrite !length_map, length_seq. reflexivity.
  - intros s Hs. apply in_map_iff in Hs. destruct Hs as (i & <- & _).
    destruct (getImageStyle_defined (Z.of_nat (List.length Home.images)) st i)
      as (a & _ & E); [discriminate |].
    rewrite E. discriminate.
Qed.

Lemma home_renders_ten_captioned_images_witness :
  exists v,
    Home.render (Continuous.mkState 9 false 0 0) = Some v
    /\ Continuous.captionText v = "Image number 10"%string.
Proof.
  destruct (home_renders_ten_captioned_images (Continuous.mkState 9 false 0 0))
    as (v & R & C & _).
  - cbn. lia.
  - exists v. split; [exact R | exact C].
Defined.

(** ** Rendering after a trace *)

(** X22: for a non-empty image list, every trace of events whose pointer
    positions stay in a viewport narrower than 200 n + 100 pixels and whose
    image clicks land on rendered images leads from the initial state to
    a state the component renders without failing, with the caption of
    the image at the reached index. *)
Theorem render_succeeds_after_trace_inside_viewport
    (images : list Continuous.Image) (width : Q) (es : list Continuous.Event) :
  images <> [] ->
  (width < 200 * inject_Z (Z.of_nat (List.length images)) + 100)%Q ->
  Forall (Trace.continuousEvent (Z.of_nat (List.length images)) width) es ->
  exists st' image v,
    Continuous.run (Z.of_nat (List.length images)) Continuous.initialState es
    = Some st'
    /\ JS.get images (Continuous.currentIndex st') = Some image
    /\ Continuous.render images st' = Some v
    /\ Continuous.captionText v = Continuous.caption image.
Proof.
  intros NE Hw Hes.
  assert (Hn : 1 <= Z.of_nat (List.length images)).
  { destruct images; [contradiction | cbn [List.length]; lia]. }
  destruct (continuous_run_in_viewport _ width es Hn Hw Hes Continuous.initialState)
    as (st' & R & Hc).
  - cbn. lia.
  - discriminate.
  - destruct (get_in_range images _ Hc) as (image & G).
    exists st', image. unfold Continuous.render. rewrite G.
    eexists. split; [exact R |]. split; [reflexivity |].
    split; reflexivity.
Qed.

Lemma render_succeeds_after_trace_inside_viewport_witness :
  exists st' image v,
    Continuous.run (Z.of_nat (List.length Home.images)) Continuous.initialState
      [Continuous.PointerDown 1900; Continuous.PointerMove 0;
       Continuous.PointerUp; Continuous.ClickPrevious]
    = Some st'
    /\ JS.get Home.images (Continuous.currentIndex st') = Some image
    /\ Continuous.render Home.images st' = Some v
    /\ Continuous.captionText v = Continuous.caption image.
Proof.
  apply (render_succeeds_after_trace_inside_viewport Home.images 1920).
  - discriminate.
  - vm_compute. reflexivity.
  - repeat constructor; cbn; vm_compute; discriminate.
Defined.
